(** * The NVM image injection tool (resources/mgv_imc_image_injection.py)

    A shallow embedding of [read_field], [WORDS_TO_BYTES] and [main], and the
    properties of the field reader, the pointer chain and the composed output
    image that follow from the code.  Two functions of the other scripts
    that compute on data follow it: [format_text] of ai_insights.py and
    [validate_steps], with [step_get_count], of resources/imc_steps_manager.py.

    Files are modelled by their contents ([list byte]): the image named by
    [--nvm], the replacement payload named by [--zephyr] and the file written
    at [--output].  The output file is taken to be a file other than the
    image, so that opening it for writing leaves the image as it was.
    The three files are taken to be readable and writable and memory to
    suffice: failures of the host are not modelled, and the [print]s are left
    out.
    Python integers are unbounded; every offset and size the tool computes is
    a sum of unsigned field values and non-negative constants, hence [N]. *)

From Stdlib Require Import List Arith NArith ZArith Lia Bool.
From Stdlib Require Import Strings.Byte.
From Stdlib Require Strings.String Strings.Ascii.
From Stdlib Require Import Floats.SpecFloat.
From Stdlib Require Import Sorting.Permutation.
Import ListNotations.

Local Open Scope N_scope.

(** ** Exceptions and results *)

(** [OverflowError] is what Python's [int.to_bytes] raises.  [BoundsError]
    and [LayoutError] are the error kinds the specification names; no
    statement of the source constructs them. *)
Inductive error : Set :=
  | OverflowError
  | BoundsError
  | LayoutError.

Inductive result (A : Type) : Type :=
  | Ok (a : A)
  | Raise (e : error).

Arguments Ok {A} a.
Arguments Raise {A} e.

Definition bind {A B : Type} (r : result A) (k : A -> result B) : result B :=
  match r with
  | Ok a => k a
  | Raise e => Raise e
  end.

Notation "x <- r ;; k" := (bind r (fun x => k))
  (at level 61, r at next level, right associativity).

(** ** Python primitives *)

Inductive endianness : Set := little | big.

(** [len(data)] *)
Definition len (data : list byte) : N := N.of_nat (length data).

Fixpoint from_little (data : list byte) : N :=
  match data with
  | [] => 0
  | b :: rest => Byte.to_N b + 256 * from_little rest
  end.

(** [int.from_bytes(data, endian)], unsigned; the empty sequence gives 0. *)
Definition int_from_bytes (data : list byte) (endian : endianness) : N :=
  match endian with
  | little => from_little data
  | big => from_little (rev data)
  end.

Definition byte_of_N (n : N) : byte :=
  match Byte.of_N n with
  | Some b => b
  | None => x00
  end.

Fixpoint to_little (length : nat) (v : N) : list byte :=
  match length with
  | O => []
  | S k => byte_of_N (v mod 256) :: to_little k (v / 256)
  end.

(** [v.to_bytes(length, byteorder=...)]: raises [OverflowError] when [v]
    does not fit in [length] bytes. *)
Definition int_to_bytes (v : N) (length : nat) (byteorder : endianness)
  : result (list byte) :=
  if v <? 256 ^ N.of_nat length then
    Ok (match byteorder with
        | little => to_little length v
        | big => rev (to_little length v)
        end)
  else Raise OverflowError.

(** [math.ceil(n / 2)] for a length [n].  The quotient [n / 2] is a float;
    it is exact below 2^53, and from 2^53 on both the float result and this
    one are at least 2^52, which [to_bytes(4, ...)] rejects alike. *)
Definition math_ceil_half (n : N) : N := (n + 1) / 2.

(** A file opened with [open(path, 'rb')]: its bytes and the read position. *)
Record file : Type := mk_file {
  content : list byte;
  position : N
}.

Definition open_rb (data : list byte) : file :=
  {| content := data; position := 0 |}.

(** [file.seek(offset)]: an offset past the end is accepted. *)
Definition seek (f : file) (offset : N) : file :=
  {| content := content f; position := offset |}.

(** [file.read(size)]: at most [size] bytes from the position, fewer (or
    none) when the file ends first. *)
Definition read (f : file) (size : N) : list byte * file :=
  let data := firstn (N.to_nat size) (skipn (N.to_nat (position f)) (content f)) in
  (data, {| content := content f; position := position f + len data |}).

(** [file.read()]: everything from the position to the end. *)
Definition read_all (f : file) : list byte * file :=
  let data := skipn (N.to_nat (position f)) (content f) in
  (data, {| content := content f; position := position f + len data |}).

(** ** The tool *)

(** [read_field(file_path, offset, size, endian='little')]; [file_path] is
    given by the bytes of the file it names. *)
Definition read_field (file_path : list byte) (offset size : N)
    (endian : endianness) : result N :=
  let file := open_rb file_path in
  let file := seek file offset in
  let '(data, file) := read file size in
  let data_int := int_from_bytes data endian in
  Ok data_int.

Definition WORDS_TO_BYTES (address : N) : N := address * 2.

Definition UBOOT_high_ptr_words : N := 0x000038EA.
Definition UBOOT_low_ptr_words : N := 0x000038E9.
Definition UBOOT_high_ptr_address : N := WORDS_TO_BYTES UBOOT_high_ptr_words.
Definition UBOOT_low_ptr_address : N := WORDS_TO_BYTES UBOOT_low_ptr_words.
Definition inner_nvm_section_offset : N := 0x3800.

(** The local variables of [main] once the pointer chain has been walked. *)
Record chain : Set := mk_chain {
  UBOOT_high : N;
  UBOOT_low : N;
  UBOOT_pointer_address : N;
  size : N;
  u_boot_pointer_address : N;
  bl3_size : N;
  zephyr_size_pointer : N;
  zephyr_size : N;
  zephyr_actual_offset : N
}.

(** The first half of [main]: the reads and the offset arithmetic, up to
    [zephyr_actual_offset]. *)
Definition pointer_chain (image_path : list byte) : result chain :=
  UBOOT_high <- read_field image_path UBOOT_high_ptr_address 2 little ;;
  UBOOT_low <- read_field image_path UBOOT_low_ptr_address 2 little ;;
  let UBOOT_pointer_address :=
    WORDS_TO_BYTES (N.shiftl UBOOT_high 16 + UBOOT_low + inner_nvm_section_offset) in
  field <- read_field image_path UBOOT_pointer_address 4 little ;;
  let size := WORDS_TO_BYTES field in
  let u_boot_pointer_address := UBOOT_pointer_address + size + 4 + 4 in
  field <- read_field image_path u_boot_pointer_address 4 little ;;
  let bl3_size := WORDS_TO_BYTES field in
  let zephyr_size_pointer := u_boot_pointer_address + 4 + bl3_size in
  field <- read_field image_path zephyr_size_pointer 4 little ;;
  let zephyr_size := WORDS_TO_BYTES field in
  let zephyr_actual_offset := zephyr_size_pointer + 4 in
  Ok {| UBOOT_high := UBOOT_high;
        UBOOT_low := UBOOT_low;
        UBOOT_pointer_address := UBOOT_pointer_address;
        size := size;
        u_boot_pointer_address := u_boot_pointer_address;
        bl3_size := bl3_size;
        zephyr_size_pointer := zephyr_size_pointer;
        zephyr_size := zephyr_size;
        zephyr_actual_offset := zephyr_actual_offset |}.

(** [main]: the image and the replacement payload in, the bytes of the
    output file (if it was opened) and how the run ended out.  The output
    file is opened once the chain has been walked and the payload read; what
    was written before an exception stays in it. *)
Definition main (image_path injection_script_path : list byte)
  : option (list byte) * result unit :=
  match pointer_chain image_path with
  | Raise e => (None, Raise e)
  | Ok c =>
      let injection_data := injection_script_path in
      let new_file : list byte := [] in
      let original_file := open_rb image_path in
      let '(data, original_file) := read original_file (zephyr_size_pointer c) in
      let new_file := new_file ++ data in
      match int_to_bytes (math_ceil_half (len injection_data)) 4 little with
      | Raise e => (Some new_file, Raise e)
      | Ok header =>
          let new_file := new_file ++ header in
          let new_file := new_file ++ injection_data in
          let original_file :=
            seek original_file (zephyr_actual_offset c + len injection_data) in
          let '(data, original_file) := read_all original_file in
          let new_file := new_file ++ data in
          (Some new_file, Ok tt)
      end
  end.

(** The two offsets the specification speaks of.  The injection point is
    [zephyr_size_pointer]; the end of the original payload, which [main]
    never computes, is where the stored size field puts it. *)
Definition injection_point (c : chain) : N := zephyr_size_pointer c.
Definition old_payload_end (c : chain) : N := zephyr_actual_offset c + zephyr_size c.

(** [data[lo:hi]] for non-negative bounds. *)
Definition slice (data : list byte) (lo hi : N) : list byte :=
  skipn (N.to_nat lo) (firstn (N.to_nat hi) data).

(** ** The algorithm as the specification words it

    The field reader with its bounds check and the eight steps of the
    pointer resolver, over the layout constants as configuration.  These
    are compared with the code below; the code does not call them. *)
Module Spec.

Definition read_field (image : list byte) (byte_offset width : N) : result N :=
  if byte_offset + width <=? len image then
    Ok (from_little (slice image byte_offset (byte_offset + width)))
  else Raise BoundsError.

Definition words_to_bytes (w : N) : N := 2 * w.

Definition resolve_injection_point
    (high_ptr_words low_ptr_words inner_section_offset_words : N)
    (image : list byte) : result (N * N) :=
  ptr_high <- read_field image (words_to_bytes high_ptr_words) 2 ;;
  ptr_low <- read_field image (words_to_bytes low_ptr_words) 2 ;;
  let combined_ptr_words :=
    N.shiftl ptr_high 16 + ptr_low + inner_section_offset_words in
  let size_field_offset := words_to_bytes combined_ptr_words in
  field <- read_field image size_field_offset 4 ;;
  let first_blob_size := words_to_bytes field in
  let payload_pair_offset := size_field_offset + first_blob_size + 8 in
  field <- read_field image payload_pair_offset 4 ;;
  let payload1_size := words_to_bytes field in
  let injection_point := payload_pair_offset + 4 + payload1_size in
  field <- read_field image injection_point 4 ;;
  let payload2_size := words_to_bytes field in
  let old_payload_end := injection_point + 4 + payload2_size in
  Ok (injection_point, old_payload_end).

End Spec.

(** Whether one of the five reads of the chain asks for bytes past the end
    of the image. *)
Definition read_exceeds (image : list byte) (offset width : N) : bool :=
  len image <? offset + width.

Definition chain_read_exceeds (image : list byte) (c : chain) : bool :=
  read_exceeds image UBOOT_high_ptr_address 2
  || read_exceeds image UBOOT_low_ptr_address 2
  || read_exceeds image (UBOOT_pointer_address c) 4
  || read_exceeds image (u_boot_pointer_address c) 4
  || read_exceeds image (zephyr_size_pointer c) 4.

(** ** Sample images *)

Definition zeros (n : N) : list byte := repeat x00 (N.to_nat n).

(** A well-formed image of 0x723F bytes.  The low pointer holds 0x0010 and
    the high pointer 0, so the size field is at 2 * (0x3800 + 0x10) = 0x7020;
    it holds 0x100 words, which puts the payload pair at 0x7228.  The first
    payload has 2 words, the second (at 0x7230) has 3 words and ends at
    0x723A; five more bytes follow. *)
Definition sample_image : list byte :=
  zeros 0x7020
  ++ [x00; x01; x00; x00]
  ++ zeros 0x1AE
  ++ [x10; x00] ++ [x00; x00]
  ++ zeros 0x52
  ++ [x02; x00; x00; x00] ++ [xa1; xa2; xa3; xa4]
  ++ [x03; x00; x00; x00] ++ [xb1; xb2; xb3; xb4; xb5; xb6]
  ++ [xe1; xe2; xe3; xe4; xe5].

Definition sample_chain : chain :=
  {| UBOOT_high := 0;
     UBOOT_low := 0x10;
     UBOOT_pointer_address := 0x7020;
     size := 0x200;
     u_boot_pointer_address := 0x7228;
     bl3_size := 4;
     zephyr_size_pointer := 0x7230;
     zephyr_size := 6;
     zephyr_actual_offset := 0x7234 |}.

(** A replacement of 7 bytes, and one of 2 bytes. *)
Definition sample_payload : list byte := [xc1; xc2; xc3; xc4; xc5; xc6; xc7].
Definition short_payload : list byte := [xd1; xd2].

(** An image that ends inside its second payload: the size field at 0x7230
    announces 3 words and only two bytes follow. *)
Definition truncated_image : list byte :=
  firstn (N.to_nat 0x7236) sample_image.

(** What [main] leaves in the output file for [sample_image] and
    [short_payload], traced by hand: the image up to 0x7230, the header for
    one word, the two payload bytes, and the image again from 0x7236, that
    is the last four bytes of the old payload and the five trailing ones. *)
Definition sample_short_output : list byte :=
  firstn (N.to_nat 0x7230) sample_image
  ++ [x01; x00; x00; x00] ++ [xd1; xd2]
  ++ [xb3; xb4; xb5; xb6] ++ [xe1; xe2; xe3; xe4; xe5].

(** The same for [truncated_image]: nothing is left to copy after the
    payload. *)
Definition truncated_short_output : list byte :=
  firstn (N.to_nat 0x7230) sample_image
  ++ [x01; x00; x00; x00] ++ [xd1; xd2].

(** The chain walked on the empty image: every field reads as 0. *)
Definition empty_chain : chain :=
  {| UBOOT_high := 0;
     UBOOT_low := 0;
     UBOOT_pointer_address := 0x7000;
     size := 0;
     u_boot_pointer_address := 0x7008;
     bl3_size := 0;
     zephyr_size_pointer := 0x700C;
     zephyr_size := 0;
     zephyr_actual_offset := 0x7010 |}.

(** A chain with another size for the second payload: what the walk gives
    on an image that differs only in the size field at the injection
    point. *)
Definition with_zephyr_size (c : chain) (s : N) : chain :=
  {| UBOOT_high := UBOOT_high c;
     UBOOT_low := UBOOT_low c;
     UBOOT_pointer_address := UBOOT_pointer_address c;
     size := size c;
     u_boot_pointer_address := u_boot_pointer_address c;
     bl3_size := bl3_size c;
     zephyr_size_pointer := zephyr_size_pointer c;
     zephyr_size := s;
     zephyr_actual_offset := zephyr_actual_offset c |}.

(** * The insight formatter (ai_insights.py)

    [format_text] is the one function of that script that computes; the rest
    is the request to the remote service and the printing.  A Python [str]
    is a sequence of code points. *)
Module Insights.

Definition str : Type := list N.

(** The code points [str.strip()] removes: those for which Python's
    [str.isspace] holds. *)
Definition isspace (c : N) : bool :=
  ((0x09 <=? c) && (c <=? 0x0D))
  || ((0x1C <=? c) && (c <=? 0x20))
  || (c =? 0x85) || (c =? 0xA0) || (c =? 0x1680)
  || ((0x2000 <=? c) && (c <=? 0x200A))
  || (c =? 0x2028) || (c =? 0x2029) || (c =? 0x202F) || (c =? 0x205F)
  || (c =? 0x3000).

Fixpoint lstrip (s : str) : str :=
  match s with
  | [] => []
  | c :: rest => if isspace c then lstrip rest else s
  end.

(** [s.strip()] *)
Definition strip (s : str) : str := rev (lstrip (rev (lstrip s))).

(** [s.startswith(prefix)] *)
Fixpoint startswith (s prefix : str) {struct prefix} : bool :=
  match prefix with
  | [] => true
  | p :: prefix' =>
      match s with
      | [] => false
      | c :: s' => (c =? p) && startswith s' prefix'
      end
  end.

Definition newline : N := 10.

(** [text.split('\n')]: never empty, the empty text gives one empty line. *)
Fixpoint split_lines (text : str) : list str :=
  match text with
  | [] => [[]]
  | c :: rest =>
      if c =? newline then [] :: split_lines rest
      else match split_lines rest with
           | line :: lines => (c :: line) :: lines
           | [] => [[c]]
           end
  end.

(** ['\n'.join(lines)] *)
Fixpoint join_lines (lines : list str) : str :=
  match lines with
  | [] => []
  | [line] => line
  | line :: lines' => line ++ newline :: join_lines lines'
  end.

(** The literals ["```c"], ["```"] and ["    "]. *)
Definition fence_c : str := [96; 96; 96; 99].
Definition fence : str := [96; 96; 96].
Definition indent : str := [32; 32; 32; 32].

(** The body of the [for] loop, on the two variables it updates. *)
Definition format_line (state : list str * bool) (line : str) : list str * bool :=
  let '(formatted_text, in_code_block) := state in
  if startswith (strip line) fence_c then (formatted_text, true)
  else if startswith (strip line) fence && in_code_block then
    (formatted_text, false)
  else if in_code_block then (formatted_text ++ [indent ++ line], in_code_block)
  else (formatted_text, in_code_block).

Definition format_text (text : str) : str :=
  let '(formatted_text, in_code_block) :=
    fold_left format_line (split_lines text) ([], false) in
  join_lines formatted_text.

(** A reply with a C block of two lines between two lines of prose. *)
Definition sample_reply : str :=
  [72; 105; 10]
  ++ [32; 96; 96; 96; 99; 10]
  ++ [105; 110; 116; 32; 120; 59; 10]
  ++ [9; 120; 32; 61; 32; 49; 59; 10]
  ++ [96; 96; 96; 10]
  ++ [98; 121; 101].

End Insights.

(** * The build-step validator (resources/imc_steps_manager.py)

    [validate_steps] on the value [json.load] returns.  The file is given by
    that value, or by nothing when [open] or [json.load] raises.  Strings are
    sequences of code points, integers are unbounded, floats are binary64
    values. *)
Module Steps.
Import Strings.String.

Definition str : Type := list N.

(** A string literal of the source. *)
Definition lit (s : string) : str :=
  List.map Ascii.N_of_ascii (list_ascii_of_string s).

#[warnings="-register-all"]
Inductive json : Type :=
  | JNone
  | JBool (b : bool)
  | JInt (n : Z)
  | JFloat (f : spec_float)
  | JStr (s : str)
  | JList (items : list json)
  | JDict (entries : list (str * json)).

Inductive exception : Set := KeyError | TypeError.

Inductive outcome (A : Type) : Type :=
  | Return (a : A)
  | Except (e : exception).

Arguments Return {A} a.
Arguments Except {A} e.

Definition obind {A B : Type} (r : outcome A) (k : A -> outcome B) : outcome B :=
  match r with
  | Return a => k a
  | Except e => Except e
  end.

Notation "x <~ r ;; k" := (obind r (fun x => k))
  (at level 61, r at next level, right associativity).

Fixpoint str_eqb (a b : str) : bool :=
  match a, b with
  | [], [] => true
  | x :: a', y :: b' => (x =? y)%N && str_eqb a' b'
  | _, _ => false
  end.

(** [sub in s] for two strings. *)
Fixpoint contains (s sub : str) {struct s} : bool :=
  Insights.startswith s sub
  || match s with
     | [] => false
     | _ :: rest => contains rest sub
     end.

(** A [dict] as its items in insertion order. *)
Fixpoint lookup (key : str) (entries : list (str * json)) : option json :=
  match entries with
  | [] => None
  | (k, v) :: rest => if str_eqb key k then Some v else lookup key rest
  end.

(** [key in container] for a string [key]: a key of a dict, an element of
    a list, a substring of a string; a [TypeError] on anything else. *)
Definition py_in (key : str) (container : json) : outcome bool :=
  match container with
  | JDict entries =>
      Return (match lookup key entries with Some _ => true | None => false end)
  | JList items =>
      Return (existsb (fun v => match v with
                                | JStr s => str_eqb key s
                                | _ => false
                                end) items)
  | JStr s => Return (contains s key)
  | _ => Except TypeError
  end.

(** [container[key]] for a string [key]. *)
Definition getitem (container : json) (key : str) : outcome json :=
  match container with
  | JDict entries =>
      match lookup key entries with
      | Some v => Return v
      | None => Except KeyError
      end
  | _ => Except TypeError
  end.

(** [for x in container]: the elements of a list, the keys of a dict, the
    characters of a string. *)
Definition iterate (container : json) : outcome (list json) :=
  match container with
  | JList items => Return items
  | JDict entries => Return (List.map (fun kv => JStr (fst kv)) entries)
  | JStr s => Return (List.map (fun c => JStr [c]) s)
  | _ => Except TypeError
  end.

(** [bool] is a subclass of [int]: [True] is 1 and [False] is 0. *)
Definition as_int (v : json) : option Z :=
  match v with
  | JBool b => Some (if b then 1 else 0)%Z
  | JInt n => Some n
  | _ => None
  end.

Definition isinstance_bool (v : json) : bool :=
  match v with JBool _ => true | _ => false end.

Definition isinstance_int (v : json) : bool :=
  match v with JBool _ | JInt _ => true | _ => false end.

(** Whether the float [f] has the value of the integer [n]. *)
Definition float_is_int (f : spec_float) (n : Z) : bool :=
  match f with
  | S754_zero _ => (n =? 0)%Z
  | S754_finite s m e =>
      let v := if s then Z.neg m else Z.pos m in
      if (0 <=? e)%Z then (n =? v * 2 ^ e)%Z
      else ((v mod 2 ^ (- e) =? 0) && (n =? v / 2 ^ (- e)))%Z
  | _ => false
  end.

Definition float_eqb (f g : spec_float) : bool :=
  match f, g with
  | S754_zero _, S754_zero _ => true
  | S754_infinity s, S754_infinity t => Bool.eqb s t
  | S754_finite s m e, S754_finite t k d =>
      Bool.eqb s t
      && (Z.pos m * 2 ^ (e - Z.min e d) =? Z.pos k * 2 ^ (d - Z.min e d))%Z
  | _, _ => false
  end.

(** [x == y] on the values a set can hold. *)
Definition py_eq (x y : json) : bool :=
  match x, y with
  | JNone, JNone => true
  | JStr s, JStr t => str_eqb s t
  | JFloat f, JFloat g => float_eqb f g
  | JFloat f, _ => match as_int y with Some n => float_is_int f n | None => false end
  | _, JFloat g => match as_int x with Some n => float_is_int g n | None => false end
  | _, _ =>
      match as_int x, as_int y with
      | Some a, Some b => (a =? b)%Z
      | _, _ => false
      end
  end.

(** [x in indexes] for the set [indexes]: hashing a list or a dict raises
    [TypeError]. *)
Definition set_contains (indexes : list json) (x : json) : outcome bool :=
  match x with
  | JList _ | JDict _ => Except TypeError
  | _ => Return (existsb (py_eq x) indexes)
  end.

(** [a or b], the second operand evaluated only when the first is false. *)
Definition por (a b : outcome bool) : outcome bool :=
  x <~ a ;; if x then Return true else b.

Definition not_in (key : str) (container : json) : outcome bool :=
  x <~ py_in key container ;; Return (negb x).

(** The body of the [for] loop on one step: [None] when it returns 1, the
    set [indexes] after the step otherwise. *)
Definition validate_step (step : json) (indexes : list json)
  : outcome (option (list json)) :=
  missing <~ por (not_in (lit "index") step)
               (por (not_in (lit "description") step)
                  (por (not_in (lit "work_path") step)
                     (not_in (lit "execute_command") step))) ;;
  if missing then Return None else
  index <~ getitem step (lit "index") ;;
  duplicate <~ set_contains indexes index ;;
  if duplicate then Return None else
  index <~ getitem step (lit "index") ;;
  let indexes := index :: indexes in
  not_bool <~ por (x <~ getitem step (lit "break_on_error") ;;
                   Return (negb (isinstance_bool x)))
                (x <~ getitem step (lit "force_verbose") ;;
                 Return (negb (isinstance_bool x))) ;;
  if not_bool then Return None else
  index <~ getitem step (lit "index") ;;
  if negb (isinstance_int index) then Return None else
  Return (Some indexes).

Fixpoint validate_loop (steps : list json) (indexes : list json) : outcome Z :=
  match steps with
  | [] => Return 0%Z
  | step :: rest =>
      next <~ validate_step step indexes ;;
      match next with
      | None => Return 1%Z
      | Some indexes => validate_loop rest indexes
      end
  end.

(** The [try] block of [validate_steps], once the file is loaded. *)
Definition validate_data (data : json) : outcome Z :=
  absent <~ not_in (lit "imc_build_steps") data ;;
  if absent then Return 1%Z else
  steps <~ getitem data (lit "imc_build_steps") ;;
  steps <~ iterate steps ;;
  validate_loop steps [].

(** [validate_steps(json_file)]: every exception gives 1. *)
Definition validate_steps (json_file : option json) : Z :=
  match json_file with
  | None => 1%Z
  | Some data =>
      match validate_data data with
      | Return r => r
      | Except _ => 1%Z
      end
  end.

(** [len(container)] *)
Definition py_len (container : json) : outcome Z :=
  match container with
  | JList items => Return (Z.of_nat (List.length items))
  | JDict entries => Return (Z.of_nat (List.length entries))
  | JStr s => Return (Z.of_nat (List.length s))
  | _ => Except TypeError
  end.

(** [step_get_count(json_file)]: every exception gives 1. *)
Definition step_get_count (json_file : option json) : Z :=
  match json_file with
  | None => 1%Z
  | Some data =>
      match (present <~ py_in (lit "imc_build_steps") data ;;
             if present then
               steps <~ getitem data (lit "imc_build_steps") ;;
               py_len steps
             else Return 1%Z) with
      | Return r => r
      | Except _ => 1%Z
      end
  end.

(** What a step must be to pass: an object with the four named keys, an
    integer [index] and two boolean flags. *)
Definition is_set (v : option json) : bool :=
  match v with Some _ => true | None => false end.

Definition is_flag (v : option json) : bool :=
  match v with Some (JBool _) => true | _ => false end.

Definition step_ok (step : json) : bool :=
  match step with
  | JDict entries =>
      match lookup (lit "index") entries with
      | Some index => isinstance_int index
      | None => false
      end
      && is_set (lookup (lit "description") entries)
      && is_set (lookup (lit "work_path") entries)
      && is_set (lookup (lit "execute_command") entries)
      && is_flag (lookup (lit "break_on_error") entries)
      && is_flag (lookup (lit "force_verbose") entries)
  | _ => false
  end.

(** The integer a step's [index] stands for. *)
Definition step_index (step : json) : option Z :=
  match step with
  | JDict entries =>
      match lookup (lit "index") entries with
      | Some index => as_int index
      | None => None
      end
  | _ => None
  end.

(** A step with every field, and a file of two steps. *)
Definition sample_step (index : json) : json :=
  JDict [(lit "index", index);
         (lit "description", JStr (lit "Build u-boot"));
         (lit "work_path", JStr (lit "${HOME}/u-boot"));
         (lit "execute_command", JStr (lit "make"));
         (lit "break_on_error", JBool true);
         (lit "force_verbose", JBool false)].

Definition sample_steps : list json :=
  [sample_step (JInt 1); sample_step (JInt 2)].

End Steps.

(** * Properties *)

(** ** Bytes and little-endian integers *)

Lemma to_N_lt_256 (b : byte) : Byte.to_N b < 256.
Proof. pose proof (Byte.to_N_bounded b). lia. Qed.

Lemma byte_of_to_N (b : byte) : byte_of_N (Byte.to_N b) = b.
Proof. unfold byte_of_N. now rewrite Byte.of_to_N. Qed.

Lemma to_N_byte_of_N (n : N) : n < 256 -> Byte.to_N (byte_of_N n) = n.
Proof.
  intros Hn. unfold byte_of_N.
  destruct (Byte.of_N n) as [b|] eqn:E.
  - now apply Byte.to_of_N.
  - apply Byte.of_N_None_iff in E. lia.
Qed.

Lemma len_cons (b : byte) (data : list byte) : len (b :: data) = 1 + len data.
Proof. unfold len. cbn [length]. lia. Qed.

Lemma len_app (l1 l2 : list byte) : len (l1 ++ l2) = len l1 + len l2.
Proof. unfold len. rewrite length_app. lia. Qed.

Lemma from_little_cons (b : byte) (rest : list byte) :
  from_little (b :: rest) = Byte.to_N b + 256 * from_little rest.
Proof. reflexivity. Qed.

Lemma from_little_bound (data : list byte) :
  from_little data < 256 ^ len data.
Proof.
  induction data as [|b rest IH].
  - cbn. lia.
  - rewrite from_little_cons, len_cons, N.pow_add_r, N.pow_1_r.
    pose proof (to_N_lt_256 b). nia.
Qed.

Lemma from_little_mod (b : byte) (rest : list byte) :
  from_little (b :: rest) mod 256 = Byte.to_N b.
Proof.
  rewrite from_little_cons, (N.mul_comm 256), N.Div0.mod_add.
  apply N.mod_small, to_N_lt_256.
Qed.

Lemma from_little_div (b : byte) (rest : list byte) :
  from_little (b :: rest) / 256 = from_little rest.
Proof.
  rewrite from_little_cons, N.add_comm, (N.mul_comm 256), N.div_add_l by lia.
  rewrite (N.div_small (Byte.to_N b)) by apply to_N_lt_256. lia.
Qed.

(** Writing back the integer read from [data], on as many bytes, gives
    [data]. *)
Lemma to_little_from_little (data : list byte) :
  to_little (length data) (from_little data) = data.
Proof.
  induction data as [|b rest IH].
  - reflexivity.
  - cbn [length to_little].
    rewrite from_little_mod, from_little_div, byte_of_to_N, IH. reflexivity.
Qed.

Lemma length_to_little (k : nat) (v : N) : length (to_little k v) = k.
Proof.
  revert v. induction k as [|k IH]; intros v; cbn [to_little length].
  - reflexivity.
  - now rewrite IH.
Qed.

(** Reading back the bytes written for [v] gives [v], when [v] fits. *)
Lemma from_little_to_little (k : nat) (v : N) :
  v < 256 ^ N.of_nat k -> from_little (to_little k v) = v.
Proof.
  revert v. induction k as [|k IH]; intros v Hv.
  - cbn in Hv. cbn. lia.
  - cbn [to_little]. rewrite from_little_cons.
    rewrite to_N_byte_of_N by (apply N.mod_lt; lia).
    rewrite IH.
    + pose proof (N.div_mod v 256). lia.
    + rewrite Nat2N.inj_succ, N.pow_succ_r' in Hv.
      apply N.Div0.div_lt_upper_bound. lia.
Qed.

Lemma int_to_bytes_fits (v : N) (k : nat) :
  v < 256 ^ N.of_nat k -> int_to_bytes v k little = Ok (to_little k v).
Proof.
  intros Hv. unfold int_to_bytes.
  destruct (N.ltb_spec v (256 ^ N.of_nat k)); [reflexivity | lia].
Qed.

Lemma int_to_bytes_overflow (v : N) (k : nat) (byteorder : endianness) :
  256 ^ N.of_nat k <= v -> int_to_bytes v k byteorder = Raise OverflowError.
Proof.
  intros Hv. unfold int_to_bytes.
  destruct (N.ltb_spec v (256 ^ N.of_nat k)); [lia | reflexivity].
Qed.

(** ** Slices of a byte sequence *)

Lemma len_firstn (n : N) (data : list byte) :
  len (firstn (N.to_nat n) data) = N.min n (len data).
Proof. unfold len. rewrite length_firstn. lia. Qed.

Lemma len_skipn (n : N) (data : list byte) :
  len (skipn (N.to_nat n) data) = len data - n.
Proof. unfold len. rewrite length_skipn. lia. Qed.

Lemma skipn_past (n : N) (data : list byte) :
  len data <= n -> skipn (N.to_nat n) data = [].
Proof. unfold len. intros H. apply skipn_all2. lia. Qed.

Lemma firstn_past (n : N) (data : list byte) :
  len data <= n -> firstn (N.to_nat n) data = data.
Proof. unfold len. intros H. apply firstn_all2. lia. Qed.

Lemma slice_from (data : list byte) (lo w : N) :
  slice data lo (lo + w) = firstn (N.to_nat w) (skipn (N.to_nat lo) data).
Proof.
  unfold slice. rewrite N2Nat.inj_add. symmetry. apply firstn_skipn_comm.
Qed.

(** ** The field reader *)

Lemma read_field_little (image : list byte) (offset width : N) :
  read_field image offset width little
  = Ok (from_little (firstn (N.to_nat width) (skipn (N.to_nat offset) image))).
Proof. reflexivity. Qed.

Lemma read_field_in_bounds (image : list byte) (offset width : N) :
  offset + width <= len image ->
  read_field image offset width little
  = Ok (from_little (slice image offset (offset + width)))
  /\ len (slice image offset (offset + width)) = width.
Proof.
  intros Hin. rewrite read_field_little, slice_from. split; [reflexivity|].
  rewrite len_firstn, len_skipn. lia.
Qed.

Lemma spec_read_field_ok (image : list byte) (offset width v : N) :
  Spec.read_field image offset width = Ok v ->
  read_field image offset width little = Ok v.
Proof.
  unfold Spec.read_field.
  destruct (N.leb_spec (offset + width) (len image)) as [Hin|Hout].
  - intros [= <-]. now apply read_field_in_bounds.
  - discriminate.
Qed.

(** ** The pointer chain *)

Lemma Ok_inj {A : Type} (a b : A) : Ok a = Ok b -> a = b.
Proof. intros H. now injection H. Qed.

Lemma pointer_chain_total (image : list byte) :
  exists c, pointer_chain image = Ok c.
Proof.
  unfold pointer_chain. rewrite !read_field_little. cbn [bind].
  rewrite !read_field_little. cbn [bind].
  rewrite !read_field_little. cbn [bind].
  rewrite !read_field_little. cbn [bind].
  eexists. reflexivity.
Qed.

Lemma pointer_chain_inv (image : list byte) (c : chain) :
  pointer_chain image = Ok c ->
  read_field image UBOOT_high_ptr_address 2 little = Ok (UBOOT_high c)
  /\ read_field image UBOOT_low_ptr_address 2 little = Ok (UBOOT_low c)
  /\ UBOOT_pointer_address c
     = WORDS_TO_BYTES (N.shiftl (UBOOT_high c) 16 + UBOOT_low c
                       + inner_nvm_section_offset)
  /\ (exists f, read_field image (UBOOT_pointer_address c) 4 little = Ok f
                /\ size c = WORDS_TO_BYTES f)
  /\ u_boot_pointer_address c = UBOOT_pointer_address c + size c + 4 + 4
  /\ (exists f, read_field image (u_boot_pointer_address c) 4 little = Ok f
                /\ bl3_size c = WORDS_TO_BYTES f)
  /\ zephyr_size_pointer c = u_boot_pointer_address c + 4 + bl3_size c
  /\ (exists f, read_field image (zephyr_size_pointer c) 4 little = Ok f
                /\ zephyr_size c = WORDS_TO_BYTES f)
  /\ zephyr_actual_offset c = zephyr_size_pointer c + 4.
Proof.
  unfold pointer_chain. rewrite !read_field_little. cbn [bind].
  rewrite !read_field_little. cbn [bind].
  rewrite !read_field_little. cbn [bind].
  rewrite !read_field_little. cbn [bind].
  intros Hc. apply Ok_inj in Hc. subst c.
  cbn [UBOOT_high UBOOT_low UBOOT_pointer_address size
    u_boot_pointer_address bl3_size zephyr_size_pointer zephyr_size
    zephyr_actual_offset].
  repeat match goal with
         | |- _ /\ _ => split
         | |- exists _, _ => eexists
         end.
  all: exact eq_refl.
Qed.

(** The stored size field of the second payload sits in the four bytes at
    the injection point, and [old_payload_end] is read off it. *)
Lemma old_payload_end_inv (image : list byte) (c : chain) :
  pointer_chain image = Ok c ->
  old_payload_end c
  = injection_point c + 4
    + 2 * from_little (firstn 4 (skipn (N.to_nat (injection_point c)) image)).
Proof.
  intros Hc. apply pointer_chain_inv in Hc.
  destruct Hc as (_ & _ & _ & _ & _ & _ & _ & (f & Hf & Hsz) & Hoff).
  rewrite read_field_little in Hf. apply Ok_inj in Hf. subst f.
  unfold old_payload_end, injection_point. rewrite Hoff, Hsz.
  unfold WORDS_TO_BYTES. change (N.to_nat 4) with 4%nat. lia.
Qed.

(** ** What [main] writes *)

Lemma main_unfold (image injection_data : list byte) (c : chain) :
  pointer_chain image = Ok c ->
  main image injection_data
  = match int_to_bytes (math_ceil_half (len injection_data)) 4 little with
    | Raise e =>
        (Some (firstn (N.to_nat (zephyr_size_pointer c)) image), Raise e)
    | Ok header =>
        (Some (firstn (N.to_nat (zephyr_size_pointer c)) image
               ++ header ++ injection_data
               ++ skipn (N.to_nat (zephyr_actual_offset c + len injection_data))
                    image),
         Ok tt)
    end.
Proof.
  intros Hc. unfold main. rewrite Hc.
  cbv beta iota zeta delta [read read_all seek open_rb content position].
  change (N.to_nat 0) with 0%nat. cbn [skipn app].
  destruct (int_to_bytes _ 4 little); [|reflexivity].
  now rewrite <- !app_assoc.
Qed.

Lemma header_fits (n : N) : n < 2 ^ 33 - 1 <-> math_ceil_half n < 256 ^ N.of_nat 4.
Proof.
  unfold math_ceil_half. change (256 ^ N.of_nat 4) with (2 ^ 32).
  split; intros H.
  - apply N.Div0.div_lt_upper_bound. change (2 ^ 33) with (2 * 2 ^ 32) in H. lia.
  - destruct (N.lt_ge_cases n (2 ^ 33 - 1)) as [|Hge]; [assumption|].
    exfalso. apply (N.lt_irrefl (2 ^ 32)).
    apply N.le_lt_trans with ((n + 1) / 2); [|assumption].
    change (2 ^ 32) with ((2 ^ 33) / 2) at 1. apply N.Div0.div_le_mono. lia.
Qed.

(** [math_ceil_half n] is the least [h] with [n <= 2 * h]. *)
Lemma ceil_half_spec (n : N) :
  n <= 2 * math_ceil_half n < n + 2
  /\ (N.even n = true -> 2 * math_ceil_half n = n)
  /\ (N.odd n = true -> 2 * math_ceil_half n = n + 1).
Proof.
  unfold math_ceil_half.
  assert (Hdm : n + 1 = 2 * ((n + 1) / 2) + (n + 1) mod 2)
    by (apply N.div_mod; discriminate).
  assert (Hlt : (n + 1) mod 2 < 2) by (apply N.mod_lt; discriminate).
  revert Hdm Hlt.
  generalize ((n + 1) / 2) as q. generalize ((n + 1) mod 2) as r.
  intros r q Hdm Hlt.
  split; [lia|]. split; intros Hpar.
  - apply N.even_spec in Hpar. destruct Hpar as [k Hk]. lia.
  - apply N.odd_spec in Hpar. destruct Hpar as [k Hk]. lia.
Qed.

(** [main] runs to its end exactly when the payload's word count fits the
    four bytes of the header; otherwise [to_bytes] raises. *)
Lemma main_finishes (image injection_data : list byte) :
  len injection_data < 2 ^ 33 - 1 ->
  exists output, main image injection_data = (Some output, Ok tt).
Proof.
  intros Hn. destruct (pointer_chain_total image) as [c Hc].
  rewrite (main_unfold _ _ _ Hc).
  rewrite int_to_bytes_fits by now apply header_fits.
  eexists. reflexivity.
Qed.

Lemma main_overflow (image injection_data : list byte) (c : chain) :
  pointer_chain image = Ok c ->
  2 ^ 33 - 1 <= len injection_data ->
  main image injection_data
  = (Some (firstn (N.to_nat (zephyr_size_pointer c)) image), Raise OverflowError).
Proof.
  intros Hc Hn. rewrite (main_unfold _ _ _ Hc).
  rewrite int_to_bytes_overflow; [reflexivity|].
  destruct (N.le_gt_cases (256 ^ N.of_nat 4) (math_ceil_half (len injection_data)))
    as [|Hlt]; [assumption|].
  apply header_fits in Hlt. lia.
Qed.

(** The output of a run that finished, in terms of the chain. *)
Lemma main_output (image injection_data output : list byte) (c : chain) :
  pointer_chain image = Ok c ->
  main image injection_data = (Some output, Ok tt) ->
  exists header,
    int_to_bytes (math_ceil_half (len injection_data)) 4 little = Ok header
    /\ output
       = firstn (N.to_nat (injection_point c)) image
         ++ header ++ injection_data
         ++ skipn (N.to_nat (injection_point c + 4 + len injection_data)) image.
Proof.
  intros Hc Hmain. rewrite (main_unfold _ _ _ Hc) in Hmain.
  destruct (int_to_bytes _ 4 little) as [header|e] eqn:Hh; [|discriminate].
  injection Hmain as <-. exists header. split; [reflexivity|].
  apply pointer_chain_inv in Hc.
  destruct Hc as (_ & _ & _ & _ & _ & _ & _ & _ & ->).
  reflexivity.
Qed.

(** ** The sample images, evaluated *)

Lemma sample_image_chain : pointer_chain sample_image = Ok sample_chain.
Proof. vm_compute. reflexivity. Qed.

Lemma truncated_image_chain : pointer_chain truncated_image = Ok sample_chain.
Proof. vm_compute. reflexivity. Qed.

Lemma empty_image_chain : pointer_chain [] = Ok empty_chain.
Proof. vm_compute. reflexivity. Qed.

Lemma empty_image_short_run :
  main [] short_payload = (Some ([x01; x00; x00; x00] ++ short_payload), Ok tt).
Proof. vm_compute. reflexivity. Qed.

Lemma sample_image_short_run :
  main sample_image short_payload = (Some sample_short_output, Ok tt).
Proof.
  rewrite (main_unfold _ _ _ sample_image_chain).
  replace (int_to_bytes (math_ceil_half (len short_payload)) 4 little)
    with (Ok [x01; x00; x00; x00]) by (vm_compute; reflexivity).
  cbn [zephyr_size_pointer zephyr_actual_offset sample_chain].
  replace (skipn (N.to_nat (0x7234 + len short_payload)) sample_image)
    with [xb3; xb4; xb5; xb6; xe1; xe2; xe3; xe4; xe5]
    by (vm_compute; reflexivity).
  reflexivity.
Qed.

Lemma truncated_image_short_run :
  main truncated_image short_payload = (Some truncated_short_output, Ok tt).
Proof.
  rewrite (main_unfold _ _ _ truncated_image_chain).
  replace (int_to_bytes (math_ceil_half (len short_payload)) 4 little)
    with (Ok [x01; x00; x00; x00]) by (vm_compute; reflexivity).
  cbn [zephyr_size_pointer zephyr_actual_offset sample_chain].
  replace (skipn (N.to_nat (0x7234 + len short_payload)) truncated_image)
    with (@nil byte) by (vm_compute; reflexivity).
  unfold truncated_image, truncated_short_output.
  rewrite firstn_firstn, Nat.min_l by lia.
  reflexivity.
Qed.

(** * The claims *)

(** ** Field reader *)

(** C10: [read_field] is total on out-of-range reads.  When
    [offset + width] is past the end of the image it raises nothing and
    returns the little-endian integer of the bytes that are there, from
    [offset] to the end of the image; when [offset] is at or past the end it
    returns 0. *)
Theorem read_field_past_end (image : list byte) (offset width : N) :
  len image < offset + width ->
  read_field image offset width little
  = Ok (int_from_bytes (slice image offset (len image)) little)
  /\ (len image <= offset -> read_field image offset width little = Ok 0).
Proof.
  intros Hout. rewrite read_field_little. unfold slice, int_from_bytes.
  rewrite (firstn_past (len image) image) by lia.
  rewrite (firstn_past width) by (rewrite len_skipn; lia).
  split; [reflexivity|].
  intros Hoff. now rewrite skipn_past.
Qed.

Lemma read_field_past_end_witness :
  len [x01; x02; x03] < 1 + 4
  /\ read_field [x01; x02; x03] 1 4 little
     = Ok (int_from_bytes (slice [x01; x02; x03] 1 (len [x01; x02; x03])) little)
  /\ (len [x01; x02; x03] <= 1 -> read_field [x01; x02; x03] 1 4 little = Ok 0).
Proof.
  split; [reflexivity|].
  apply (read_field_past_end [x01; x02; x03] 1 4). reflexivity.
Defined.

(** C4, as the claim has it, fails: the one-byte image read at offset 0 on
    two bytes exceeds the image by one byte, and [read_field] returns 1, no
    [BoundsError]. *)
Lemma read_field_bounds_error_counterexample :
  len [x01] < 0 + 2
  /\ read_field [x01] 0 2 little = Ok 1
  /\ read_field [x01] 0 2 little <> Raise BoundsError.
Proof.
  split; [reflexivity|]. split; [reflexivity|]. discriminate.
Qed.

(** C4, amended: [read_field] raises on no image, offset and width.  A read
    that ends at or before the end of the image returns the little-endian
    integer of the [width] bytes at [offset]; a read that exceeds the image
    returns a value as well, and never a [BoundsError]. *)
Theorem read_field_never_fails (image : list byte) (offset width : N) :
  (exists v, read_field image offset width little = Ok v /\ v < 256 ^ width)
  /\ (forall e, read_field image offset width little <> Raise e)
  /\ (offset + width <= len image ->
      read_field image offset width little
      = Ok (int_from_bytes (slice image offset (offset + width)) little)
      /\ len (slice image offset (offset + width)) = width).
Proof.
  repeat split.
  - rewrite read_field_little. eexists. split; [reflexivity|].
    eapply N.lt_le_trans; [apply from_little_bound|].
    apply N.pow_le_mono_r; [lia|]. rewrite len_firstn. lia.
  - intros e. rewrite read_field_little. discriminate.
  - now apply read_field_in_bounds.
  - now apply read_field_in_bounds.
Qed.

Lemma read_field_never_fails_witness :
  1 + 2 <= len [x01; x02; x03]
  /\ read_field [x01; x02; x03] 1 2 little
     = Ok (int_from_bytes (slice [x01; x02; x03] 1 (1 + 2)) little)
  /\ len (slice [x01; x02; x03] 1 (1 + 2)) = 2.
Proof.
  split; [discriminate|].
  apply (read_field_never_fails [x01; x02; x03] 1 2). discriminate.
Defined.

(** ** Pointer resolver *)

Lemma spec_read_field_in_bounds (image : list byte) (offset width : N) :
  read_exceeds image offset width = false ->
  Spec.read_field image offset width = read_field image offset width little.
Proof.
  unfold read_exceeds, Spec.read_field. intros Hin. apply N.ltb_ge in Hin.
  destruct (N.leb_spec (offset + width) (len image)) as [_|Hout]; [|lia].
  symmetry. now apply read_field_in_bounds.
Qed.

(** One read of the specified algorithm that succeeded: it is the read the
    code made at that offset, whose value is known from the chain. *)
Ltac spec_read Hspec Hcode :=
  match type of Hspec with
  | bind (Spec.read_field ?image ?offset ?width) _ = _ =>
      let v := fresh "v" in
      let S := fresh "S" in
      destruct (Spec.read_field image offset width) as [v|] eqn:S;
      [|discriminate Hspec];
      apply spec_read_field_ok in S; rewrite Hcode in S; apply Ok_inj in S;
      cbn [bind] in Hspec; subst v
  end.

(** The specified algorithm is sound for the code: the pair it yields is the
    pair the code's chain holds. *)
Lemma spec_resolution_is_computed (image : list byte) (ip ope : N) :
  Spec.resolve_injection_point
    UBOOT_high_ptr_words UBOOT_low_ptr_words inner_nvm_section_offset image
  = Ok (ip, ope) ->
  exists c, pointer_chain image = Ok c
            /\ injection_point c = ip /\ old_payload_end c = ope.
Proof.
  intros Hspec. destruct (pointer_chain_total image) as [c Hc].
  exists c. split; [assumption|].
  apply pointer_chain_inv in Hc.
  destruct Hc as (Hhi & Hlo & Hptr & (f1 & Hr1 & Hsize) & Huboot
                  & (f2 & Hr2 & Hbl3) & Hzsp & (f3 & Hr3 & Hzs) & Hzao).
  unfold Spec.resolve_injection_point in Hspec.
  change (Spec.words_to_bytes UBOOT_high_ptr_words)
    with UBOOT_high_ptr_address in Hspec.
  change (Spec.words_to_bytes UBOOT_low_ptr_words)
    with UBOOT_low_ptr_address in Hspec.
  spec_read Hspec Hhi. spec_read Hspec Hlo.
  replace (Spec.words_to_bytes
             (N.shiftl (UBOOT_high c) 16 + UBOOT_low c + inner_nvm_section_offset))
    with (UBOOT_pointer_address c) in Hspec
    by (rewrite Hptr; unfold Spec.words_to_bytes, WORDS_TO_BYTES; lia).
  spec_read Hspec Hr1.
  replace (UBOOT_pointer_address c + Spec.words_to_bytes f1 + 8)
    with (u_boot_pointer_address c) in Hspec
    by (rewrite Huboot, Hsize; unfold Spec.words_to_bytes, WORDS_TO_BYTES; lia).
  spec_read Hspec Hr2.
  replace (u_boot_pointer_address c + 4 + Spec.words_to_bytes f2)
    with (zephyr_size_pointer c) in Hspec
    by (rewrite Hzsp, Hbl3; unfold Spec.words_to_bytes, WORDS_TO_BYTES; lia).
  spec_read Hspec Hr3.
  apply Ok_inj in Hspec.
  assert (Hip : zephyr_size_pointer c = ip) by congruence.
  assert (Hope : zephyr_size_pointer c + 4 + Spec.words_to_bytes f3 = ope)
    by congruence.
  unfold injection_point, old_payload_end. split; [assumption|].
  rewrite Hzao, Hzs, <- Hope. unfold Spec.words_to_bytes, WORDS_TO_BYTES. lia.
Qed.

(** C2: on every image whose pointer-chain fields are in bounds (none of
    the five reads of the chain exceeds the image), the pair [main] works
    with, its [zephyr_size_pointer] and the end of the payload whose size it
    reads there, is the pair the eight steps of the specification give. *)
Theorem pointer_chain_follows_spec (image : list byte) (c : chain) :
  pointer_chain image = Ok c ->
  chain_read_exceeds image c = false ->
  Spec.resolve_injection_point
    UBOOT_high_ptr_words UBOOT_low_ptr_words inner_nvm_section_offset image
  = Ok (injection_point c, old_payload_end c).
Proof.
  intros Hc Hin. unfold chain_read_exceeds in Hin.
  apply orb_false_elim in Hin. destruct Hin as [Hin H5].
  apply orb_false_elim in Hin. destruct Hin as [Hin H4].
  apply orb_false_elim in Hin. destruct Hin as [Hin H3].
  apply orb_false_elim in Hin. destruct Hin as [H1 H2].
  apply spec_read_field_in_bounds in H1, H2, H3, H4, H5.
  apply pointer_chain_inv in Hc.
  destruct Hc as (Hhi & Hlo & Hptr & (f1 & Hr1 & Hsize) & Huboot
                  & (f2 & Hr2 & Hbl3) & Hzsp & (f3 & Hr3 & Hzs) & Hzao).
  unfold Spec.resolve_injection_point.
  change (Spec.words_to_bytes UBOOT_high_ptr_words) with UBOOT_high_ptr_address.
  change (Spec.words_to_bytes UBOOT_low_ptr_words) with UBOOT_low_ptr_address.
  rewrite H1, Hhi, H2, Hlo. cbn [bind].
  replace (Spec.words_to_bytes
             (N.shiftl (UBOOT_high c) 16 + UBOOT_low c + inner_nvm_section_offset))
    with (UBOOT_pointer_address c)
    by (rewrite Hptr; unfold Spec.words_to_bytes, WORDS_TO_BYTES; lia).
  rewrite H3, Hr1. cbn [bind].
  replace (UBOOT_pointer_address c + Spec.words_to_bytes f1 + 8)
    with (u_boot_pointer_address c)
    by (rewrite Huboot, Hsize; unfold Spec.words_to_bytes, WORDS_TO_BYTES; lia).
  rewrite H4, Hr2. cbn [bind].
  replace (u_boot_pointer_address c + 4 + Spec.words_to_bytes f2)
    with (zephyr_size_pointer c)
    by (rewrite Hzsp, Hbl3; unfold Spec.words_to_bytes, WORDS_TO_BYTES; lia).
  rewrite H5, Hr3. cbn [bind].
  unfold injection_point, old_payload_end. do 2 f_equal.
  rewrite Hzao, Hzs. unfold Spec.words_to_bytes, WORDS_TO_BYTES. lia.
Qed.

Lemma pointer_chain_follows_spec_witness :
  pointer_chain sample_image = Ok sample_chain
  /\ chain_read_exceeds sample_image sample_chain = false
  /\ Spec.resolve_injection_point
       UBOOT_high_ptr_words UBOOT_low_ptr_words inner_nvm_section_offset
       sample_image
     = Ok (injection_point sample_chain, old_payload_end sample_chain).
Proof.
  split; [exact sample_image_chain|]. split; [vm_compute; reflexivity|].
  apply (pointer_chain_follows_spec sample_image sample_chain).
  - exact sample_image_chain.
  - vm_compute. reflexivity.
Defined.

(** ** Image composer *)

Lemma skipn_length_app (l1 l2 : list byte) (n : nat) :
  length l1 = n -> skipn n (l1 ++ l2) = l2.
Proof.
  intros <-. rewrite skipn_app, skipn_all, Nat.sub_diag. reflexivity.
Qed.

Lemma firstn_length_app (l1 l2 : list byte) (n : nat) :
  length l1 = n -> firstn n (l1 ++ l2) = l1.
Proof.
  intros <-. rewrite firstn_app, firstn_all, Nat.sub_diag, firstn_O.
  apply app_nil_r.
Qed.

Lemma to_nat_len (data : list byte) : N.to_nat (len data) = length data.
Proof. unfold len. apply Nat2N.id. Qed.

(** A run on a payload whose word count fits the header: what is written. *)
Lemma finished_run (image injection_data : list byte) (c : chain) :
  pointer_chain image = Ok c ->
  len injection_data < 2 ^ 33 - 1 ->
  main image injection_data
  = (Some (firstn (N.to_nat (injection_point c)) image
           ++ to_little 4 (math_ceil_half (len injection_data))
           ++ injection_data
           ++ skipn (N.to_nat (injection_point c + 4 + len injection_data)) image),
     Ok tt).
Proof.
  intros Hc Hn. destruct (main_finishes image _ Hn) as [output Hmain].
  destruct (main_output _ _ _ _ Hc Hmain) as (header & Hh & ->).
  rewrite int_to_bytes_fits in Hh by now apply header_fits.
  apply Ok_inj in Hh. subst header. assumption.
Qed.

(** The bytes of the output from [injection_point + 4 + len(P)] on are those
    of the image from the same offset on. *)
Lemma output_tail (image payload header : list byte) (ip : N) :
  length header = 4%nat ->
  skipn (N.to_nat (ip + 4 + len payload))
    (firstn (N.to_nat ip) image ++ header ++ payload
     ++ skipn (N.to_nat (ip + 4 + len payload)) image)
  = skipn (N.to_nat (ip + 4 + len payload)) image.
Proof.
  intros Hh. destruct (N.le_gt_cases ip (len image)) as [Hin|Hout].
  - rewrite !app_assoc. apply skipn_length_app.
    rewrite !length_app, length_firstn, Hh. unfold len in *. lia.
  - rewrite (skipn_past (ip + 4 + len payload) image) by lia.
    apply skipn_all2.
    rewrite !length_app, length_firstn, Hh. cbn [length]. unfold len in *. lia.
Qed.

(** C1, as the claim has it, fails: on [sample_image] with the two-byte
    payload the output from [injection_point + 4 + 2] on still holds the last
    four bytes of the old payload, which the image from [old_payload_end] on
    does not. *)
Lemma trailing_bytes_counterexample :
  pointer_chain sample_image = Ok sample_chain
  /\ main sample_image short_payload = (Some sample_short_output, Ok tt)
  /\ skipn (N.to_nat (injection_point sample_chain + 4 + len short_payload))
       sample_short_output
     <> skipn (N.to_nat (old_payload_end sample_chain)) sample_image.
Proof.
  split; [exact sample_image_chain|]. split; [exact sample_image_short_run|].
  vm_compute. discriminate.
Qed.

(** C1, amended: for every image and every payload (whose word count fits
    the header), the bytes of the composed output after the replaced region
    equal the input's bytes from [injection_point + 4 + len(P)] on: the
    trailing copy resumes [len(P)] bytes after the start of the old payload.
    That is the end of the old payload as its size field gives it when
    [len(P)] equals the stored size. *)
Theorem trailing_bytes_resume_after_payload (image payload : list byte) :
  len payload < 2 ^ 33 - 1 ->
  exists c output,
    pointer_chain image = Ok c
    /\ main image payload = (Some output, Ok tt)
    /\ skipn (N.to_nat (injection_point c + 4 + len payload)) output
       = skipn (N.to_nat (injection_point c + 4 + len payload)) image
    /\ (len payload = zephyr_size c ->
        skipn (N.to_nat (injection_point c + 4 + len payload)) output
        = skipn (N.to_nat (old_payload_end c)) image).
Proof.
  intros Hn. destruct (pointer_chain_total image) as [c Hc].
  exists c. eexists. split; [assumption|].
  split; [exact (finished_run image payload c Hc Hn)|].
  assert (Htail := output_tail image payload
                     (to_little 4 (math_ceil_half (len payload)))
                     (injection_point c) (length_to_little _ _)).
  split; [assumption|].
  intros Hsame. rewrite Htail. f_equal. f_equal.
  apply pointer_chain_inv in Hc.
  destruct Hc as (_ & _ & _ & _ & _ & _ & _ & _ & Hzao).
  unfold old_payload_end, injection_point. rewrite Hzao, Hsame. reflexivity.
Qed.

Lemma trailing_bytes_resume_after_payload_witness :
  len short_payload < 2 ^ 33 - 1
  /\ exists c output,
       pointer_chain sample_image = Ok c
       /\ main sample_image short_payload = (Some output, Ok tt)
       /\ skipn (N.to_nat (injection_point c + 4 + len short_payload)) output
          = skipn (N.to_nat (injection_point c + 4 + len short_payload)) sample_image
       /\ (len short_payload = zephyr_size c ->
           skipn (N.to_nat (injection_point c + 4 + len short_payload)) output
           = skipn (N.to_nat (old_payload_end c)) sample_image).
Proof.
  split; [reflexivity|].
  apply (trailing_bytes_resume_after_payload sample_image short_payload).
  reflexivity.
Defined.

(** C3, as the claim has it, fails: on [sample_image] (0x723F bytes, old
    payload of 6 bytes ending at 0x723A) with the two-byte payload the output
    has the 0x723F bytes of the input, and the formula gives 0x723B. *)
Lemma output_length_counterexample :
  pointer_chain sample_image = Ok sample_chain
  /\ main sample_image short_payload = (Some sample_short_output, Ok tt)
  /\ old_payload_end sample_chain <= len sample_image
  /\ len short_payload <> zephyr_size sample_chain
  /\ len sample_short_output = len sample_image
  /\ len sample_short_output
     <> injection_point sample_chain + 4 + len short_payload
        + (len sample_image - old_payload_end sample_chain).
Proof.
  split; [exact sample_image_chain|]. split; [exact sample_image_short_run|].
  split; [vm_compute; discriminate|]. split; [vm_compute; discriminate|].
  split; [vm_compute; reflexivity|]. vm_compute. discriminate.
Qed.

(** C3, amended: the length of the composed output is the length of the
    prefix copied (the injection point, or the whole image if it is shorter)
    plus 4 plus [len(P)] plus what the image holds from
    [injection_point + 4 + len(P)] on.  It is the length of the input
    whenever the header and the payload fit in the image, whatever the size
    of the old payload, and it is the formula of the claim when [len(P)] is
    the stored size and the old payload ends within the image. *)
Theorem output_length (image payload : list byte) :
  len payload < 2 ^ 33 - 1 ->
  exists c output,
    pointer_chain image = Ok c
    /\ main image payload = (Some output, Ok tt)
    /\ len output
       = N.min (injection_point c) (len image) + 4 + len payload
         + (len image - (injection_point c + 4 + len payload))
    /\ (injection_point c + 4 + len payload <= len image ->
        len output = len image)
    /\ (len payload = zephyr_size c ->
        old_payload_end c <= len image ->
        len output
        = injection_point c + 4 + len payload
          + (len image - old_payload_end c)).
Proof.
  intros Hn. destruct (pointer_chain_total image) as [c Hc].
  exists c. eexists. split; [assumption|].
  split; [exact (finished_run image payload c Hc Hn)|].
  assert (Hlen : forall ip,
    len (firstn (N.to_nat ip) image
         ++ to_little 4 (math_ceil_half (len payload)) ++ payload
         ++ skipn (N.to_nat (ip + 4 + len payload)) image)
    = N.min ip (len image) + 4 + len payload
      + (len image - (ip + 4 + len payload))).
  { intros ip. rewrite !len_app, len_firstn, len_skipn.
    unfold len at 2. rewrite length_to_little. lia. }
  rewrite Hlen. split; [reflexivity|]. split.
  - intros Hfit. lia.
  - intros Hsame Hend.
    apply pointer_chain_inv in Hc.
    destruct Hc as (_ & _ & _ & _ & _ & _ & _ & _ & Hzao).
    unfold old_payload_end, injection_point in *. rewrite Hzao in *. lia.
Qed.

Lemma output_length_witness :
  len sample_payload < 2 ^ 33 - 1
  /\ exists c output,
       pointer_chain sample_image = Ok c
       /\ main sample_image sample_payload = (Some output, Ok tt)
       /\ len output
          = N.min (injection_point c) (len sample_image) + 4 + len sample_payload
            + (len sample_image - (injection_point c + 4 + len sample_payload))
       /\ (injection_point c + 4 + len sample_payload <= len sample_image ->
           len output = len sample_image)
       /\ (len sample_payload = zephyr_size c ->
           old_payload_end c <= len sample_image ->
           len output
           = injection_point c + 4 + len sample_payload
             + (len sample_image - old_payload_end c)).
Proof.
  split; [reflexivity|].
  apply (output_length sample_image sample_payload). reflexivity.
Defined.

(** C5, as the claim has it, fails: the header is not always at the
    injection point.  On the empty image the injection point is 0x700C;
    [main] copies no prefix and writes the header of the two-byte payload at
    offset 0, so the output is [01 00 00 00 d1 d2], and the four bytes at the
    injection point, past the end of the output, read as 0 and not as the
    word count 1. *)
Lemma header_at_injection_point_counterexample :
  pointer_chain [] = Ok empty_chain
  /\ injection_point empty_chain = 0x700C
  /\ main [] short_payload
     = (Some ([x01; x00; x00; x00] ++ short_payload), Ok tt)
  /\ math_ceil_half (len short_payload) = 1
  /\ read_field ([x01; x00; x00; x00] ++ short_payload)
       (injection_point empty_chain) 4 little = Ok 0
  /\ read_field ([x01; x00; x00; x00] ++ short_payload)
       (injection_point empty_chain) 4 little
     <> Ok (math_ceil_half (len short_payload)).
Proof.
  split; [exact empty_image_chain|]. split; [reflexivity|].
  split; [exact empty_image_short_run|]. split; [reflexivity|].
  split; [vm_compute; reflexivity|]. vm_compute. discriminate.
Qed.

(** C5, amended: for every payload of fewer than 2^33 - 1 bytes (the
    word count then fits the header and the output is composed), the four
    bytes of the output that follow the copied prefix are the little-endian
    [ceil(len(P) / 2)]: the least [h] with [len(P) <= 2 * h], which is
    [len(P) / 2] for an even length and [(len(P) + 1) / 2] for an odd one.
    They sit at the injection point when the injection point lies within the
    image, and at the end of the image when the image is shorter. *)
Theorem header_is_ceil_half (image payload : list byte) :
  len payload < 2 ^ 33 - 1 ->
  exists c output h,
    pointer_chain image = Ok c
    /\ main image payload = (Some output, Ok tt)
    /\ let at_ := N.min (injection_point c) (len image) in
       len (slice output at_ (at_ + 4)) = 4
       /\ int_from_bytes (slice output at_ (at_ + 4)) little = h
       /\ read_field output at_ 4 little = Ok h
    /\ len payload <= 2 * h < len payload + 2
    /\ (N.even (len payload) = true -> 2 * h = len payload)
    /\ (N.odd (len payload) = true -> 2 * h = len payload + 1)
    /\ (injection_point c <= len image ->
        read_field output (injection_point c) 4 little = Ok h).
Proof.
  intros Hn. destruct (pointer_chain_total image) as [c Hc].
  exists c. eexists. exists (math_ceil_half (len payload)).
  split; [assumption|].
  split; [exact (finished_run image payload c Hc Hn)|].
  cbv zeta.
  match goal with
  | |- ?A /\ ?B /\ ?C /\ _ => assert (Hcore : A /\ B /\ C)
  end.
  { rewrite read_field_little, slice_from.
    set (header := to_little 4 (math_ceil_half (len payload))).
    assert (Hat : N.to_nat (N.min (injection_point c) (len image))
                  = length (firstn (N.to_nat (injection_point c)) image)).
    { rewrite <- len_firstn. apply to_nat_len. }
    rewrite Hat, skipn_length_app by reflexivity.
    change (N.to_nat 4) with 4%nat.
    rewrite firstn_length_app by apply length_to_little.
    assert (Hv : from_little header = math_ceil_half (len payload)).
    { apply from_little_to_little. now apply header_fits. }
    unfold int_from_bytes. rewrite Hv.
    split; [unfold len, header; now rewrite length_to_little|].
    split; reflexivity. }
  destruct Hcore as (Hlen & Hvalue & Hread).
  pose proof (ceil_half_spec (len payload)) as (Hleast & Heven & Hodd).
  repeat (split; [assumption|]).
  intros Hin. rewrite N.min_l in Hread by exact Hin. exact Hread.
Qed.

Lemma header_is_ceil_half_witness :
  len sample_payload < 2 ^ 33 - 1
  /\ exists c output h,
       pointer_chain sample_image = Ok c
       /\ main sample_image sample_payload = (Some output, Ok tt)
       /\ let at_ := N.min (injection_point c) (len sample_image) in
          len (slice output at_ (at_ + 4)) = 4
          /\ int_from_bytes (slice output at_ (at_ + 4)) little = h
          /\ read_field output at_ 4 little = Ok h
       /\ len sample_payload <= 2 * h < len sample_payload + 2
       /\ (N.even (len sample_payload) = true -> 2 * h = len sample_payload)
       /\ (N.odd (len sample_payload) = true -> 2 * h = len sample_payload + 1)
       /\ (injection_point c <= len sample_image ->
           read_field output (injection_point c) 4 little = Ok h).
Proof.
  split; [reflexivity|].
  apply (header_is_ceil_half sample_image sample_payload). reflexivity.
Defined.

(** The payload of 7 bytes gets the header value 4. *)
Lemma seven_byte_header :
  int_to_bytes (math_ceil_half (len sample_payload)) 4 little
  = Ok [x04; x00; x00; x00].
Proof. reflexivity. Qed.

(** C8: when the injection point lies within the image, the first
    [injection_point] bytes of what [main] writes are those of the image,
    for every payload (also one whose header cannot be written). *)
Theorem prefix_preserved (image payload : list byte) (c : chain) :
  pointer_chain image = Ok c ->
  injection_point c <= len image ->
  exists output status,
    main image payload = (Some output, status)
    /\ slice output 0 (injection_point c) = slice image 0 (injection_point c).
Proof.
  intros Hc Hin. rewrite (main_unfold _ _ _ Hc).
  assert (Hpre : length (firstn (N.to_nat (injection_point c)) image)
                 = N.to_nat (injection_point c)).
  { rewrite length_firstn. unfold len in Hin. lia. }
  unfold slice. change (N.to_nat 0) with 0%nat. cbn [skipn].
  fold (injection_point c).
  destruct (int_to_bytes _ 4 little) as [header|e].
  - do 2 eexists. split; [reflexivity|].
    now rewrite firstn_length_app.
  - do 2 eexists. split; [reflexivity|].
    now rewrite firstn_firstn, Nat.min_id.
Qed.

Lemma prefix_preserved_witness :
  pointer_chain sample_image = Ok sample_chain
  /\ injection_point sample_chain <= len sample_image
  /\ exists output status,
       main sample_image sample_payload = (Some output, status)
       /\ slice output 0 (injection_point sample_chain)
          = slice sample_image 0 (injection_point sample_chain).
Proof.
  split; [exact sample_image_chain|]. split; [vm_compute; discriminate|].
  apply (prefix_preserved sample_image sample_payload sample_chain).
  - exact sample_image_chain.
  - vm_compute. discriminate.
Defined.

(** C9: when the header and the payload fit between the injection point
    and the end of the image, the output is the image up to the injection
    point, the header, the payload, and the image again from
    [injection_point + 4 + len(P)] on; it has the length of the image,
    whatever size the old payload's size field holds. *)
Theorem overwrite_in_place (image payload : list byte) (c : chain) :
  pointer_chain image = Ok c ->
  len payload < 2 ^ 33 - 1 ->
  injection_point c + 4 + len payload <= len image ->
  exists header output,
    int_to_bytes (math_ceil_half (len payload)) 4 little = Ok header
    /\ main image payload = (Some output, Ok tt)
    /\ output
       = slice image 0 (injection_point c) ++ header ++ payload
         ++ skipn (N.to_nat (injection_point c + 4 + len payload)) image
    /\ len output = len image.
Proof.
  intros Hc Hn Hfit.
  exists (to_little 4 (math_ceil_half (len payload))). eexists.
  split; [apply int_to_bytes_fits; now apply header_fits|].
  split; [exact (finished_run image payload c Hc Hn)|].
  unfold slice. change (N.to_nat 0) with 0%nat. cbn [skipn].
  split; [reflexivity|].
  rewrite !len_app, len_firstn, len_skipn.
  unfold len at 2. rewrite length_to_little. lia.
Qed.

Lemma overwrite_in_place_witness :
  pointer_chain sample_image = Ok sample_chain
  /\ len short_payload < 2 ^ 33 - 1
  /\ injection_point sample_chain + 4 + len short_payload <= len sample_image
  /\ exists header output,
       int_to_bytes (math_ceil_half (len short_payload)) 4 little = Ok header
       /\ main sample_image short_payload = (Some output, Ok tt)
       /\ output
          = slice sample_image 0 (injection_point sample_chain)
            ++ header ++ short_payload
            ++ skipn (N.to_nat (injection_point sample_chain + 4 + len short_payload))
                 sample_image
       /\ len output = len sample_image.
Proof.
  split; [exact sample_image_chain|]. split; [reflexivity|].
  split; [vm_compute; discriminate|].
  apply (overwrite_in_place sample_image short_payload sample_chain).
  - exact sample_image_chain.
  - reflexivity.
  - vm_compute. discriminate.
Defined.

Lemma firstn_split (l : list byte) (a b : nat) :
  (a <= b)%nat -> firstn a l ++ skipn a (firstn b l) = firstn b l.
Proof.
  intros Hab. rewrite <- (firstn_skipn a (firstn b l)) at 2.
  rewrite firstn_firstn, Nat.min_l by assumption. reflexivity.
Qed.

(** C6: round trip.  When the chain is well formed (the old payload ends
    within the image) and the replacement is the old payload itself,
    [image[injection_point + 4 : old_payload_end]], [main] runs to its end and
    the output is the image, byte for byte. *)
Theorem round_trip (image : list byte) (c : chain) :
  pointer_chain image = Ok c ->
  old_payload_end c <= len image ->
  main image (slice image (injection_point c + 4) (old_payload_end c))
  = (Some image, Ok tt).
Proof.
  intros Hc Hend.
  pose proof (old_payload_end_inv image c Hc) as Hope.
  set (ip := injection_point c) in *.
  set (field := firstn 4 (skipn (N.to_nat ip) image)) in *.
  set (payload := slice image (ip + 4) (old_payload_end c)).
  assert (Hfield : length field = 4%nat).
  { unfold field. rewrite length_firstn, length_skipn. unfold len in Hend. lia. }
  assert (Hbound : from_little field < 2 ^ 32).
  { pose proof (from_little_bound field) as Hb. unfold len in Hb.
    rewrite Hfield in Hb. exact Hb. }
  assert (Hlen : len payload = 2 * from_little field).
  { unfold payload, slice. rewrite len_skipn, len_firstn. lia. }
  assert (Hn : len payload < 2 ^ 33 - 1).
  { rewrite Hlen. change (2 ^ 33) with (2 * 2 ^ 32). lia. }
  rewrite (finished_run image payload c Hc Hn). fold ip.
  assert (Hceil : math_ceil_half (len payload) = from_little field).
  { pose proof (ceil_half_spec (len payload)) as [Hh _]. lia. }
  rewrite Hceil. rewrite <- Hfield at 1. rewrite to_little_from_little.
  replace (ip + 4 + len payload) with (old_payload_end c) by lia.
  f_equal. f_equal.
  unfold field, payload, slice.
  change 4%nat with (N.to_nat 4) at 1.
  rewrite (firstn_skipn_comm (N.to_nat 4) (N.to_nat ip) image).
  rewrite <- N2Nat.inj_add.
  rewrite !app_assoc, (firstn_split image) by lia.
  rewrite (firstn_split image) by lia.
  apply firstn_skipn.
Qed.

Lemma round_trip_witness :
  pointer_chain sample_image = Ok sample_chain
  /\ old_payload_end sample_chain <= len sample_image
  /\ main sample_image
       (slice sample_image (injection_point sample_chain + 4)
          (old_payload_end sample_chain))
     = (Some sample_image, Ok tt).
Proof.
  split; [exact sample_image_chain|]. split; [vm_compute; discriminate|].
  apply (round_trip sample_image sample_chain).
  - exact sample_image_chain.
  - vm_compute. discriminate.
Defined.

(** ** Resolver failures *)

(** C7, as the claim has it, fails twice.  On [truncated_image] the size
    read for the second payload puts its end at 0x723A, past the 0x7236 bytes
    of the image; the resolver returns its chain all the same and [main]
    composes an output.  On the empty image every read of the chain exceeds
    the image; each returns 0, the resolver returns [empty_chain] and [main]
    writes the header and the payload. *)
Lemma resolver_errors_counterexample :
  (pointer_chain truncated_image = Ok sample_chain
   /\ len truncated_image < old_payload_end sample_chain
   /\ pointer_chain truncated_image <> Raise LayoutError
   /\ main truncated_image short_payload = (Some truncated_short_output, Ok tt))
  /\ (pointer_chain [] = Ok empty_chain
      /\ chain_read_exceeds [] empty_chain = true
      /\ pointer_chain [] <> Raise BoundsError
      /\ main [] short_payload
         = (Some ([x01; x00; x00; x00] ++ short_payload), Ok tt)).
Proof.
  split.
  - split; [exact truncated_image_chain|]. split; [vm_compute; reflexivity|].
    split; [rewrite truncated_image_chain; discriminate|].
    exact truncated_image_short_run.
  - split; [exact empty_image_chain|]. split; [reflexivity|].
    split; [rewrite empty_image_chain; discriminate|].
    exact empty_image_short_run.
Qed.

(** C7, amended: on every input image the resolver returns a chain.  It
    raises neither [LayoutError] nor [BoundsError], whatever the sizes it
    computes and wherever its reads fall, and [main] goes on to compose an
    output for every payload whose word count fits the header; the one
    exception [main] can raise is the [OverflowError] of a header that does
    not fit. *)
Theorem resolver_never_fails (image : list byte) :
  (exists c, pointer_chain image = Ok c)
  /\ (forall e, pointer_chain image <> Raise e)
  /\ (forall payload, len payload < 2 ^ 33 - 1 ->
        exists output, main image payload = (Some output, Ok tt))
  /\ (forall payload e, snd (main image payload) = Raise e ->
        e = OverflowError /\ 2 ^ 33 - 1 <= len payload).
Proof.
  destruct (pointer_chain_total image) as [c Hc].
  split; [now exists c|]. split; [intros e; rewrite Hc; discriminate|].
  split; [intros payload; apply main_finishes|].
  intros payload e Hraise.
  destruct (N.lt_ge_cases (len payload) (2 ^ 33 - 1)) as [Hfit|Hbig].
  - destruct (main_finishes image payload Hfit) as [output Hmain].
    rewrite Hmain in Hraise. discriminate.
  - rewrite (main_overflow image payload c Hc Hbig) in Hraise.
    cbn [snd] in Hraise. split; [congruence|assumption].
Qed.

Lemma resolver_never_fails_witness :
  len short_payload < 2 ^ 33 - 1
  /\ exists output, main truncated_image short_payload = (Some output, Ok tt).
Proof.
  split; [reflexivity|].
  apply (proj1 (proj2 (proj2 (resolver_never_fails truncated_image)))).
  reflexivity.
Defined.

(** * Further properties of the tool *)

(** ** Little-endian integers of concatenated bytes *)

Lemma from_little_app (a b : list byte) :
  from_little (a ++ b) = from_little a + 256 ^ len a * from_little b.
Proof.
  induction a as [|x a IH].
  - cbn [app from_little]. change (len []) with 0. rewrite N.pow_0_r. lia.
  - cbn [app]. rewrite !from_little_cons, IH, len_cons, N.pow_add_r, N.pow_1_r.
    generalize (256 ^ len a) as p. intros p. lia.
Qed.

Lemma from_little_zero_bytes (l : list byte) :
  Forall (fun b => b = x00) l -> from_little l = 0.
Proof.
  induction 1 as [|b l Hb _ IH].
  - reflexivity.
  - rewrite from_little_cons, IH, Hb. reflexivity.
Qed.

Lemma Forall_firstn_skipn (P : byte -> Prop) (l : list byte) (n m : nat) :
  Forall P l -> Forall P (firstn n (skipn m l)).
Proof.
  intros Hl.
  rewrite <- (firstn_skipn m l) in Hl. apply Forall_app in Hl.
  destruct Hl as [_ Hl].
  rewrite <- (firstn_skipn n (skipn m l)) in Hl. apply Forall_app in Hl.
  exact (proj1 Hl).
Qed.

Lemma zeros_all_zero (k : N) : Forall (fun b => b = x00) (zeros k).
Proof.
  unfold zeros. apply Forall_forall. intros b Hb.
  now apply repeat_spec in Hb.
Qed.

Lemma firstn_add (l : list byte) (a b : nat) :
  firstn (a + b) l = firstn a l ++ firstn b (skipn a l).
Proof.
  rewrite firstn_skipn_comm. apply eq_sym, firstn_split. lia.
Qed.

Lemma read_field_eq (image : list byte) (offset width : N) (endian : endianness) :
  read_field image offset width endian
  = Ok (int_from_bytes
          (firstn (N.to_nat width) (skipn (N.to_nat offset) image)) endian).
Proof. reflexivity. Qed.

Lemma read_field_bound (image : list byte) (offset width v : N) :
  read_field image offset width little = Ok v -> v < 256 ^ width.
Proof.
  rewrite read_field_little. intros Hv. apply Ok_inj in Hv. subst v.
  eapply N.lt_le_trans; [apply from_little_bound|].
  apply N.pow_le_mono_r; [lia|]. rewrite len_firstn. lia.
Qed.

(** A field is its low part plus its high part shifted, also when the
    image ends inside or before it. *)
Lemma read_field_split (image : list byte) (offset w1 w2 : N) :
  from_little (firstn (N.to_nat (w1 + w2)) (skipn (N.to_nat offset) image))
  = from_little (firstn (N.to_nat w1) (skipn (N.to_nat offset) image))
    + 256 ^ w1
      * from_little (firstn (N.to_nat w2) (skipn (N.to_nat (offset + w1)) image)).
Proof.
  rewrite N2Nat.inj_add, firstn_add, from_little_app.
  replace (skipn (N.to_nat (offset + w1)) image)
    with (skipn (N.to_nat w1) (skipn (N.to_nat offset) image))
    by (rewrite skipn_skipn; f_equal; lia).
  set (l := skipn (N.to_nat offset) image).
  destruct (N.le_gt_cases w1 (len l)) as [Hfull|Hshort].
  - rewrite len_firstn, N.min_l by assumption. reflexivity.
  - rewrite (skipn_past w1 l) by lia. rewrite firstn_nil. cbn [from_little]. lia.
Qed.

(** ** Reads that see the same bytes *)

Lemma read_field_same_prefix (image image' : list byte) (offset width : N)
    (endian : endianness) :
  firstn (N.to_nat (offset + width)) image
  = firstn (N.to_nat (offset + width)) image' ->
  read_field image offset width endian = read_field image' offset width endian.
Proof.
  intros Hsame. rewrite !read_field_eq, !firstn_skipn_comm, <- N2Nat.inj_add.
  now rewrite Hsame.
Qed.

Lemma read_field_in_prefix (image rest : list byte) (n offset width : N)
    (endian : endianness) :
  offset + width <= n -> n <= len image ->
  read_field (firstn (N.to_nat n) image ++ rest) offset width endian
  = read_field image offset width endian.
Proof.
  intros Hin Hn. apply read_field_same_prefix.
  rewrite firstn_app, firstn_firstn, length_firstn.
  unfold len in Hn.
  replace (N.to_nat (offset + width) - Nat.min (N.to_nat n) (length image))%nat
    with 0%nat by lia.
  rewrite firstn_0, app_nil_r. f_equal. lia.
Qed.

Lemma read_field_padded (image : list byte) (k offset width : N) :
  read_field (image ++ zeros k) offset width little
  = read_field image offset width little.
Proof.
  rewrite !read_field_little. f_equal.
  rewrite skipn_app, firstn_app, from_little_app.
  rewrite (from_little_zero_bytes (firstn _ (skipn _ (zeros k)))).
  - lia.
  - apply Forall_firstn_skipn, zeros_all_zero.
Qed.

Lemma with_zephyr_size_same (c : chain) : with_zephyr_size c (zephyr_size c) = c.
Proof. destruct c. reflexivity. Qed.

(** The walk on another image whose first four reads return what they
    return on [image]: the same chain, up to the size read last. *)
Lemma chain_transfer (image image' : list byte) (c : chain) (f : N) :
  pointer_chain image = Ok c ->
  read_field image' UBOOT_high_ptr_address 2 little
  = read_field image UBOOT_high_ptr_address 2 little ->
  read_field image' UBOOT_low_ptr_address 2 little
  = read_field image UBOOT_low_ptr_address 2 little ->
  read_field image' (UBOOT_pointer_address c) 4 little
  = read_field image (UBOOT_pointer_address c) 4 little ->
  read_field image' (u_boot_pointer_address c) 4 little
  = read_field image (u_boot_pointer_address c) 4 little ->
  read_field image' (zephyr_size_pointer c) 4 little = Ok f ->
  pointer_chain image' = Ok (with_zephyr_size c (WORDS_TO_BYTES f)).
Proof.
  intros Hc H1 H2 H3 H4 H5.
  apply pointer_chain_inv in Hc.
  destruct Hc as (Hhi & Hlo & Hptr & (f1 & Hr1 & Hsize) & Huboot
                  & (f2 & Hr2 & Hbl3) & Hzsp & (f3 & Hr3 & Hzs) & Hzao).
  unfold pointer_chain.
  rewrite H1, Hhi. cbn [bind]. rewrite H2, Hlo. cbn [bind].
  rewrite <- Hptr, H3, Hr1. cbn [bind].
  rewrite <- Hsize, <- Huboot, H4, Hr2. cbn [bind].
  rewrite <- Hbl3, <- Hzsp, H5. cbn [bind].
  rewrite <- Hzao. reflexivity.
Qed.

Lemma chain_order (image : list byte) (c : chain) :
  pointer_chain image = Ok c ->
  UBOOT_pointer_address c + 12 <= zephyr_size_pointer c
  /\ u_boot_pointer_address c + 4 <= zephyr_size_pointer c
  /\ zephyr_actual_offset c = zephyr_size_pointer c + 4.
Proof.
  intros Hc. apply pointer_chain_inv in Hc.
  destruct Hc as (_ & _ & _ & _ & Huboot & _ & Hzsp & _ & Hzao). lia.
Qed.

Lemma low_pointer_before_high : UBOOT_low_ptr_address + 2 = UBOOT_high_ptr_address.
Proof. reflexivity. Qed.

(** The walk on what a finished run wrote, when the injection point lies
    within the image and after the two pointer fields. *)
Lemma output_chain (image payload : list byte) (c : chain) :
  pointer_chain image = Ok c ->
  UBOOT_high_ptr_address + 2 <= injection_point c ->
  injection_point c <= len image ->
  len payload < 2 ^ 33 - 1 ->
  pointer_chain
    (firstn (N.to_nat (injection_point c)) image
     ++ to_little 4 (math_ceil_half (len payload)) ++ payload
     ++ skipn (N.to_nat (injection_point c + 4 + len payload)) image)
  = Ok (with_zephyr_size c (WORDS_TO_BYTES (math_ceil_half (len payload)))).
Proof.
  intros Hc Hptrs Hin Hn. unfold injection_point in *.
  pose proof (chain_order image c Hc) as (Ho1 & Ho2 & _).
  pose proof low_pointer_before_high as Hlow.
  apply (chain_transfer image); try assumption.
  - apply read_field_in_prefix; lia.
  - apply read_field_in_prefix; lia.
  - apply read_field_in_prefix; lia.
  - apply read_field_in_prefix; lia.
  - rewrite read_field_little. f_equal.
    rewrite skipn_length_app by (rewrite length_firstn; unfold len in Hin; lia).
    change (N.to_nat 4) with 4%nat.
    rewrite firstn_length_app by apply length_to_little.
    apply from_little_to_little. now apply header_fits.
Qed.

Lemma output_tail_from (image payload header : list byte) (ip k : N) :
  length header = 4%nat ->
  ip + 4 + len payload <= k ->
  skipn (N.to_nat k)
    (firstn (N.to_nat ip) image ++ header ++ payload
     ++ skipn (N.to_nat (ip + 4 + len payload)) image)
  = skipn (N.to_nat k) image.
Proof.
  intros Hh Hk.
  replace (N.to_nat k)
    with ((N.to_nat k - N.to_nat (ip + 4 + len payload))
          + N.to_nat (ip + 4 + len payload))%nat by lia.
  rewrite <- !skipn_skipn. now rewrite output_tail.
Qed.

Lemma ceil_half_double (n : N) :
  WORDS_TO_BYTES (math_ceil_half n) = n + n mod 2.
Proof.
  unfold WORDS_TO_BYTES, math_ceil_half.
  assert (H1 : n + 1 = 2 * ((n + 1) / 2) + (n + 1) mod 2)
    by (apply N.div_mod; discriminate).
  assert (H2 : (n + 1) mod 2 < 2) by (apply N.mod_lt; discriminate).
  assert (H3 : n = 2 * (n / 2) + n mod 2) by (apply N.div_mod; discriminate).
  assert (H4 : n mod 2 < 2) by (apply N.mod_lt; discriminate).
  revert H1 H2 H3 H4.
  generalize ((n + 1) / 2) as q. generalize ((n + 1) mod 2) as r.
  generalize (n / 2) as q'. generalize (n mod 2) as r'.
  intros r' q' r q H1 H2 H3 H4. lia.
Qed.

(** ** Field reader *)

(** X1: reading past the end of the image is reading an image padded with
    zero bytes: a little-endian field of [image ++ zeros k] is the field of
    [image], at every offset and width, and so the chain walked on the padded
    image is the chain walked on the image. *)
Theorem read_past_end_is_zero_padding (image : list byte) (k : N) :
  (forall offset width,
     read_field (image ++ zeros k) offset width little
     = read_field image offset width little)
  /\ pointer_chain (image ++ zeros k) = pointer_chain image.
Proof.
  split; [intros offset width; apply read_field_padded|].
  destruct (pointer_chain_total image) as [c Hc].
  pose proof (pointer_chain_inv image c Hc)
    as (_ & _ & _ & _ & _ & _ & _ & (f & Hf & Hzs) & _).
  rewrite Hc, <- (with_zephyr_size_same c), Hzs.
  apply (chain_transfer image); try assumption; try apply read_field_padded.
  now rewrite read_field_padded.
Qed.

(** X2: the two 16-bit pointer halves are the one 32-bit little-endian
    field at byte 0x71D2: [(UBOOT_high << 16) + UBOOT_low] is what
    [read_field] returns there on four bytes, on every image, and the size
    field sits at twice that value plus the section offset. *)
Theorem pointer_is_one_field (image : list byte) (c : chain) :
  pointer_chain image = Ok c ->
  read_field image UBOOT_low_ptr_address 4 little
  = Ok (N.shiftl (UBOOT_high c) 16 + UBOOT_low c)
  /\ UBOOT_pointer_address c
     = 2 * (N.shiftl (UBOOT_high c) 16 + UBOOT_low c + inner_nvm_section_offset).
Proof.
  intros Hc. apply pointer_chain_inv in Hc.
  destruct Hc as (Hhi & Hlo & Hptr & _).
  split; [|rewrite Hptr; unfold WORDS_TO_BYTES; lia].
  rewrite read_field_little in *. apply Ok_inj in Hhi, Hlo.
  rewrite <- low_pointer_before_high in Hhi.
  change 4 with (2 + 2) at 1. rewrite read_field_split, Hhi, Hlo.
  rewrite N.shiftl_mul_pow2. f_equal. change (256 ^ 2) with (2 ^ 16). lia.
Qed.

Lemma pointer_is_one_field_witness :
  pointer_chain sample_image = Ok sample_chain
  /\ read_field sample_image UBOOT_low_ptr_address 4 little
     = Ok (N.shiftl (UBOOT_high sample_chain) 16 + UBOOT_low sample_chain)
  /\ UBOOT_pointer_address sample_chain
     = 2 * (N.shiftl (UBOOT_high sample_chain) 16 + UBOOT_low sample_chain
            + inner_nvm_section_offset).
Proof.
  split; [exact sample_image_chain|].
  apply (pointer_is_one_field sample_image sample_chain).
  exact sample_image_chain.
Defined.

(** ** Pointer chain *)

(** X3: whatever the image holds, the offsets of the chain are even,
    increase along the chain and stay below 2^36: the size field is at
    0x7000 or after, the injection point at least 12 bytes further, the end of
    the old payload at least 4 bytes after the injection point. *)
Theorem chain_offsets_bounded (image : list byte) (c : chain) :
  pointer_chain image = Ok c ->
  0x7000 <= UBOOT_pointer_address c
  /\ UBOOT_pointer_address c + 12 <= injection_point c
  /\ injection_point c + 4 <= old_payload_end c
  /\ old_payload_end c < 2 ^ 36
  /\ N.even (UBOOT_pointer_address c) = true
  /\ N.even (injection_point c) = true
  /\ N.even (old_payload_end c) = true.
Proof.
  intros Hc. apply pointer_chain_inv in Hc.
  destruct Hc as (Hhi & Hlo & Hptr & (f1 & Hr1 & Hsize) & Huboot
                  & (f2 & Hr2 & Hbl3) & Hzsp & (f3 & Hr3 & Hzs) & Hzao).
  apply read_field_bound in Hhi, Hlo, Hr1, Hr2, Hr3.
  unfold injection_point, old_payload_end.
  rewrite N.shiftl_mul_pow2 in Hptr.
  unfold WORDS_TO_BYTES, inner_nvm_section_offset in *.
  change (256 ^ 2) with 65536 in *. change (256 ^ 4) with 4294967296 in *.
  change (2 ^ 16) with 65536 in *. change (2 ^ 36) with 68719476736.
  repeat split; try lia.
  - apply N.even_spec.
    exists (UBOOT_high c * 65536 + UBOOT_low c + 14336). lia.
  - apply N.even_spec.
    exists (UBOOT_high c * 65536 + UBOOT_low c + 14336 + f1 + 6 + f2). lia.
  - apply N.even_spec.
    exists (UBOOT_high c * 65536 + UBOOT_low c + 14336 + f1 + 8 + f2 + f3). lia.
Qed.

Lemma chain_offsets_bounded_witness :
  pointer_chain truncated_image = Ok sample_chain
  /\ 0x7000 <= UBOOT_pointer_address sample_chain
  /\ UBOOT_pointer_address sample_chain + 12 <= injection_point sample_chain
  /\ injection_point sample_chain + 4 <= old_payload_end sample_chain
  /\ old_payload_end sample_chain < 2 ^ 36
  /\ N.even (UBOOT_pointer_address sample_chain) = true
  /\ N.even (injection_point sample_chain) = true
  /\ N.even (old_payload_end sample_chain) = true.
Proof.
  split; [exact truncated_image_chain|].
  apply (chain_offsets_bounded truncated_image sample_chain).
  exact truncated_image_chain.
Defined.

(** ** Composer *)

(** X4: how a run of [main] ends.  Either the payload is shorter than
    2^33 - 1 bytes and the run finishes with an output, or it is not and
    [to_bytes] raises [OverflowError] once the prefix has been written: the
    output file is left holding the first [injection_point] bytes of the
    image and nothing else. *)
Theorem main_outcome (image payload : list byte) :
  exists c,
    pointer_chain image = Ok c
    /\ ((len payload < 2 ^ 33 - 1
         /\ exists output, main image payload = (Some output, Ok tt))
        \/ (2 ^ 33 - 1 <= len payload
            /\ main image payload
               = (Some (slice image 0 (injection_point c)), Raise OverflowError))).
Proof.
  destruct (pointer_chain_total image) as [c Hc].
  exists c. split; [assumption|].
  destruct (N.lt_ge_cases (len payload) (2 ^ 33 - 1)) as [Hfit|Hbig].
  - left. split; [assumption|]. now apply main_finishes.
  - right. split; [assumption|]. now apply main_overflow.
Qed.

(** X5: in the output of a finished run the payload follows the header,
    byte for byte: it fills the [len(P)] bytes after the four header bytes
    that follow the copied prefix. *)
Theorem payload_follows_header (image payload : list byte) :
  len payload < 2 ^ 33 - 1 ->
  exists c output,
    pointer_chain image = Ok c
    /\ main image payload = (Some output, Ok tt)
    /\ slice output (N.min (injection_point c) (len image) + 4)
         (N.min (injection_point c) (len image) + 4 + len payload)
       = payload.
Proof.
  intros Hn. destruct (pointer_chain_total image) as [c Hc].
  exists c. eexists. split; [assumption|].
  split; [exact (finished_run image payload c Hc Hn)|].
  rewrite slice_from, app_assoc.
  rewrite skipn_length_app.
  - apply firstn_length_app. symmetry. apply to_nat_len.
  - rewrite length_app, length_to_little, N2Nat.inj_add, <- len_firstn, to_nat_len.
    reflexivity.
Qed.

Lemma payload_follows_header_witness :
  len sample_payload < 2 ^ 33 - 1
  /\ exists c output,
       pointer_chain sample_image = Ok c
       /\ main sample_image sample_payload = (Some output, Ok tt)
       /\ slice output (N.min (injection_point c) (len sample_image) + 4)
            (N.min (injection_point c) (len sample_image) + 4 + len sample_payload)
          = sample_payload.
Proof.
  split; [reflexivity|].
  apply (payload_follows_header sample_image sample_payload). reflexivity.
Defined.

(** X6: an image that ends at or before the injection point is kept whole
    and extended: the output is the image, then the header, then the payload.
    The gap up to the injection point is not filled, so the header does not
    sit at the injection point. *)
Theorem short_image_is_extended (image payload : list byte) (c : chain) :
  pointer_chain image = Ok c ->
  len image <= injection_point c ->
  len payload < 2 ^ 33 - 1 ->
  exists header,
    int_to_bytes (math_ceil_half (len payload)) 4 little = Ok header
    /\ main image payload = (Some (image ++ header ++ payload), Ok tt).
Proof.
  intros Hc Hshort Hn.
  exists (to_little 4 (math_ceil_half (len payload))).
  split; [apply int_to_bytes_fits; now apply header_fits|].
  rewrite (finished_run image payload c Hc Hn).
  rewrite firstn_past by assumption.
  rewrite skipn_past by lia. now rewrite app_nil_r.
Qed.

Lemma short_image_is_extended_witness :
  pointer_chain [] = Ok empty_chain
  /\ len [] <= injection_point empty_chain
  /\ len short_payload < 2 ^ 33 - 1
  /\ exists header,
       int_to_bytes (math_ceil_half (len short_payload)) 4 little = Ok header
       /\ main [] short_payload = (Some ([] ++ header ++ short_payload), Ok tt).
Proof.
  split; [exact empty_image_chain|]. split; [vm_compute; discriminate|].
  split; [reflexivity|].
  apply (short_image_is_extended [] short_payload empty_chain).
  - exact empty_image_chain.
  - vm_compute. discriminate.
  - reflexivity.
Defined.

(** X7: a finished run never gives less than the image: the output has
    the length of the image, or that of prefix, header and payload when these
    reach past the end of the image. *)
Theorem output_never_shorter (image payload : list byte) :
  len payload < 2 ^ 33 - 1 ->
  exists c output,
    pointer_chain image = Ok c
    /\ main image payload = (Some output, Ok tt)
    /\ len output
       = N.max (len image)
           (N.min (injection_point c) (len image) + 4 + len payload).
Proof.
  intros Hn. destruct (pointer_chain_total image) as [c Hc].
  exists c. eexists. split; [assumption|].
  split; [exact (finished_run image payload c Hc Hn)|].
  rewrite !len_app, len_firstn, len_skipn.
  unfold len at 2. rewrite length_to_little. lia.
Qed.

Lemma output_never_shorter_witness :
  len sample_payload < 2 ^ 33 - 1
  /\ exists c output,
       pointer_chain truncated_image = Ok c
       /\ main truncated_image sample_payload = (Some output, Ok tt)
       /\ len output
          = N.max (len truncated_image)
              (N.min (injection_point c) (len truncated_image) + 4
               + len sample_payload).
Proof.
  split; [reflexivity|].
  apply (output_never_shorter truncated_image sample_payload). reflexivity.
Defined.

(** ** Injecting into an injected image *)

(** X8: the output of a finished run resolves like the image.  When the
    injection point lies within the image and after the two pointer fields,
    walking the chain on the output gives the same offsets, up to the same
    injection point, and there the size of the new payload in its header's
    words: [len(P)] rounded up to an even number of bytes. *)
Theorem injected_image_resolves (image payload : list byte) (c : chain) :
  pointer_chain image = Ok c ->
  UBOOT_high_ptr_address + 2 <= injection_point c ->
  injection_point c <= len image ->
  len payload < 2 ^ 33 - 1 ->
  exists output,
    main image payload = (Some output, Ok tt)
    /\ pointer_chain output
       = Ok (with_zephyr_size c (len payload + len payload mod 2)).
Proof.
  intros Hc Hptrs Hin Hn. eexists.
  split; [exact (finished_run image payload c Hc Hn)|].
  rewrite <- ceil_half_double. now apply output_chain.
Qed.

Lemma injected_image_resolves_witness :
  pointer_chain sample_image = Ok sample_chain
  /\ UBOOT_high_ptr_address + 2 <= injection_point sample_chain
  /\ injection_point sample_chain <= len sample_image
  /\ len sample_payload < 2 ^ 33 - 1
  /\ exists output,
       main sample_image sample_payload = (Some output, Ok tt)
       /\ pointer_chain output
          = Ok (with_zephyr_size sample_chain
                  (len sample_payload + len sample_payload mod 2)).
Proof.
  split; [exact sample_image_chain|]. split; [vm_compute; discriminate|].
  split; [vm_compute; discriminate|]. split; [reflexivity|].
  apply (injected_image_resolves sample_image sample_payload sample_chain).
  - exact sample_image_chain.
  - vm_compute. discriminate.
  - vm_compute. discriminate.
  - reflexivity.
Defined.

(** X9: a later injection of a payload at least as long erases an earlier
    one.  With the injection point within the image and after the pointer
    fields, injecting [later] into the output of injecting [earlier] gives
    what injecting [later] into the image gives; in particular injecting the
    same payload again leaves the output as it is. *)
Theorem later_injection_wins (image earlier later : list byte) (c : chain) :
  pointer_chain image = Ok c ->
  UBOOT_high_ptr_address + 2 <= injection_point c ->
  injection_point c <= len image ->
  len earlier <= len later ->
  len later < 2 ^ 33 - 1 ->
  exists output,
    main image earlier = (Some output, Ok tt)
    /\ main output later = main image later
    /\ main output earlier = (Some output, Ok tt).
Proof.
  intros Hc Hptrs Hin Hle Hn.
  assert (Hn' : len earlier < 2 ^ 33 - 1) by lia.
  pose proof (output_chain image earlier c Hc Hptrs Hin Hn') as Hc'.
  eexists. split; [exact (finished_run image earlier c Hc Hn')|].
  assert (Hagain : forall payload,
    len earlier <= len payload -> len payload < 2 ^ 33 - 1 ->
    main (firstn (N.to_nat (injection_point c)) image
          ++ to_little 4 (math_ceil_half (len earlier)) ++ earlier
          ++ skipn (N.to_nat (injection_point c + 4 + len earlier)) image)
      payload
    = main image payload).
  { intros payload Hlen Hfit.
    rewrite (finished_run _ payload _ Hc' Hfit).
    rewrite (finished_run image payload c Hc Hfit).
    change (injection_point (with_zephyr_size c
              (WORDS_TO_BYTES (math_ceil_half (len earlier)))))
      with (injection_point c).
    rewrite firstn_length_app
      by (rewrite length_firstn; unfold len in Hin; lia).
    rewrite output_tail_from by (try apply length_to_little; lia).
    reflexivity. }
  split; [now apply Hagain|].
  rewrite Hagain by (try assumption; lia).
  exact (finished_run image earlier c Hc Hn').
Qed.

Lemma later_injection_wins_witness :
  pointer_chain sample_image = Ok sample_chain
  /\ UBOOT_high_ptr_address + 2 <= injection_point sample_chain
  /\ injection_point sample_chain <= len sample_image
  /\ len short_payload <= len sample_payload
  /\ len sample_payload < 2 ^ 33 - 1
  /\ exists output,
       main sample_image short_payload = (Some output, Ok tt)
       /\ main output sample_payload = main sample_image sample_payload
       /\ main output short_payload = (Some output, Ok tt).
Proof.
  split; [exact sample_image_chain|]. split; [vm_compute; discriminate|].
  split; [vm_compute; discriminate|]. split; [vm_compute; discriminate|].
  split; [reflexivity|].
  apply (later_injection_wins sample_image short_payload sample_payload
           sample_chain).
  - exact sample_image_chain.
  - vm_compute. discriminate.
  - vm_compute. discriminate.
  - vm_compute. discriminate.
  - reflexivity.
Defined.

(** X10: the header counts words, so a payload of odd length is recorded
    one byte longer than it is.  In the output, the region the new size field
    delimits, from [injection_point + 4] to the end it gives, holds the
    payload followed, when [len(P)] is odd, by the byte of the image at
    [injection_point + 4 + len(P)] (if the image has one). *)
Theorem stored_size_covers_padding (image payload : list byte) (c : chain) :
  pointer_chain image = Ok c ->
  UBOOT_high_ptr_address + 2 <= injection_point c ->
  injection_point c <= len image ->
  len payload < 2 ^ 33 - 1 ->
  exists output c',
    main image payload = (Some output, Ok tt)
    /\ pointer_chain output = Ok c'
    /\ old_payload_end c'
       = injection_point c + 4 + len payload + len payload mod 2
    /\ slice output (injection_point c' + 4) (old_payload_end c')
       = payload
         ++ firstn (N.to_nat (len payload mod 2))
              (skipn (N.to_nat (injection_point c + 4 + len payload)) image).
Proof.
  intros Hc Hptrs Hin Hn.
  pose proof (output_chain image payload c Hc Hptrs Hin Hn) as Hc'.
  pose proof (chain_order image c Hc) as (_ & _ & Hzao).
  rewrite ceil_half_double in Hc'.
  do 2 eexists. split; [exact (finished_run image payload c Hc Hn)|].
  split; [exact Hc'|].
  unfold old_payload_end, injection_point in *.
  cbn [with_zephyr_size zephyr_actual_offset zephyr_size zephyr_size_pointer].
  clear Hc'. remember (len payload mod 2) as r eqn:Hr. clear Hr.
  split; [lia|].
  rewrite Hzao. unfold slice.
  set (header := to_little 4 (math_ceil_half (len payload))).
  set (tail := skipn (N.to_nat (zephyr_size_pointer c + 4 + len payload)) image).
  assert (Hpre : length (firstn (N.to_nat (zephyr_size_pointer c)) image)
                 = N.to_nat (zephyr_size_pointer c))
    by (rewrite length_firstn; unfold len in Hin; lia).
  assert (Hhead : length header = 4%nat) by apply length_to_little.
  replace (firstn (N.to_nat (zephyr_size_pointer c)) image
           ++ header ++ payload ++ tail)
    with ((firstn (N.to_nat (zephyr_size_pointer c)) image ++ header ++ payload)
          ++ tail)
    by (now rewrite <- !app_assoc).
  rewrite firstn_app.
  rewrite (firstn_all2 (n := N.to_nat _))
    by (rewrite !length_app, Hpre, Hhead; unfold len; lia).
  replace (N.to_nat (zephyr_size_pointer c + 4 + (len payload + r))
           - length (firstn (N.to_nat (zephyr_size_pointer c)) image
                     ++ header ++ payload))%nat
    with (N.to_nat r)
    by (rewrite !length_app, Hpre, Hhead; unfold len; lia).
  rewrite <- !app_assoc, (app_assoc _ header).
  apply skipn_length_app.
  rewrite length_app, Hpre, Hhead. lia.
Qed.

Lemma stored_size_covers_padding_witness :
  pointer_chain sample_image = Ok sample_chain
  /\ UBOOT_high_ptr_address + 2 <= injection_point sample_chain
  /\ injection_point sample_chain <= len sample_image
  /\ len sample_payload < 2 ^ 33 - 1
  /\ exists output c',
       main sample_image sample_payload = (Some output, Ok tt)
       /\ pointer_chain output = Ok c'
       /\ old_payload_end c'
          = injection_point sample_chain + 4 + len sample_payload
            + len sample_payload mod 2
       /\ slice output (injection_point c' + 4) (old_payload_end c')
          = sample_payload
            ++ firstn (N.to_nat (len sample_payload mod 2))
                 (skipn (N.to_nat (injection_point sample_chain + 4
                                   + len sample_payload)) sample_image).
Proof.
  split; [exact sample_image_chain|]. split; [vm_compute; discriminate|].
  split; [vm_compute; discriminate|]. split; [reflexivity|].
  apply (stored_size_covers_padding sample_image sample_payload sample_chain).
  - exact sample_image_chain.
  - vm_compute. discriminate.
  - vm_compute. discriminate.
  - reflexivity.
Defined.

(** * The insight formatter *)

Module InsightsFacts.
Import Insights.

Lemma split_lines_cons (text : str) :
  exists line lines, split_lines text = line :: lines.
Proof.
  destruct text as [|c rest]; cbn [split_lines].
  - now exists [], [].
  - destruct (c =? newline); [now eexists; eexists|].
    destruct (split_lines rest); now eexists; eexists.
Qed.

Lemma split_lines_no_newline (text : str) :
  Forall (fun line => ~ In newline line) (split_lines text).
Proof.
  induction text as [|c rest IH]; cbn [split_lines].
  - constructor; [intros []|constructor].
  - destruct (N.eqb_spec c newline) as [->|Hc].
    + constructor; [intros []|assumption].
    + destruct (split_lines rest) as [|line lines].
      * constructor; [|constructor]. intros [H|[]]. now apply Hc.
      * inversion IH as [|? ? Hline Hlines]; subst.
        constructor; [|assumption].
        intros [H|H]; [now apply Hc|now apply Hline].
Qed.

Lemma split_lines_app_newline (line rest : str) :
  ~ In newline line ->
  split_lines (line ++ newline :: rest) = line :: split_lines rest.
Proof.
  induction line as [|c line IH]; intros Hno; cbn [app split_lines].
  - now rewrite N.eqb_refl.
  - destruct (N.eqb_spec c newline) as [->|Hc]; [exfalso; apply Hno; now left|].
    rewrite IH by (intros H; apply Hno; now right). reflexivity.
Qed.

Lemma split_lines_one (line : str) :
  ~ In newline line -> split_lines line = [line].
Proof.
  induction line as [|c line IH]; intros Hno; cbn [split_lines].
  - reflexivity.
  - destruct (N.eqb_spec c newline) as [->|Hc]; [exfalso; apply Hno; now left|].
    rewrite IH by (intros H; apply Hno; now right). reflexivity.
Qed.

(** Splitting what was joined gives the lines back. *)
Lemma split_join (lines : list str) :
  lines <> [] ->
  Forall (fun line => ~ In newline line) lines ->
  split_lines (join_lines lines) = lines.
Proof.
  induction lines as [|line lines IH]; intros Hne Hno; [contradiction|].
  inversion Hno as [|? ? Hline Hlines]; subst.
  destruct lines as [|line' lines].
  - cbn [join_lines]. now apply split_lines_one.
  - change (join_lines (line :: line' :: lines))
      with (line ++ newline :: join_lines (line' :: lines)).
    rewrite split_lines_app_newline by assumption.
    rewrite IH; [reflexivity|discriminate|assumption].
Qed.

Lemma startswith_app (s p q : str) :
  startswith s (p ++ q) = true -> startswith s p = true.
Proof.
  revert s. induction p as [|x p IH]; intros s H; [reflexivity|].
  destruct s as [|c s]; cbn [app startswith] in *; [discriminate|].
  apply andb_prop in H. destruct H as [Hc H].
  rewrite Hc. now apply IH.
Qed.

Lemma fence_c_is_fence (s : str) :
  startswith s fence_c = true -> startswith s fence = true.
Proof. apply (startswith_app s fence [99]). Qed.

Lemma format_text_eq (text : str) :
  format_text text
  = join_lines (fst (fold_left format_line (split_lines text) ([], false))).
Proof.
  unfold format_text. now destruct (fold_left _ _ _).
Qed.

(** Outside a block, lines that open none leave the state as it is. *)
Lemma outside_block (lines acc : list str) :
  forallb (fun line => negb (startswith (strip line) fence_c)) lines = true ->
  fold_left format_line lines (acc, false) = (acc, false).
Proof.
  induction lines as [|line lines IH]; intros Hno; [reflexivity|].
  cbn [forallb] in Hno. apply andb_prop in Hno. destruct Hno as [Hline Hno].
  apply negb_true_iff in Hline.
  cbn [fold_left format_line]. rewrite Hline, andb_false_r. now apply IH.
Qed.

(** Inside a block, lines that are no fence are appended, indented. *)
Lemma inside_block (lines acc : list str) :
  forallb (fun line => negb (startswith (strip line) fence)) lines = true ->
  fold_left format_line lines (acc, true)
  = (acc ++ map (app indent) lines, true).
Proof.
  revert acc. induction lines as [|line lines IH]; intros acc Hno.
  - cbn. now rewrite app_nil_r.
  - cbn [forallb] in Hno. apply andb_prop in Hno. destruct Hno as [Hline Hno].
    apply negb_true_iff in Hline.
    assert (Hc : startswith (strip line) fence_c = false).
    { destruct (startswith (strip line) fence_c) eqn:E; [|reflexivity].
      apply fence_c_is_fence in E. congruence. }
    cbn [fold_left format_line]. rewrite Hc, Hline. cbn [andb].
    rewrite IH by assumption. cbn [map]. now rewrite <- app_assoc.
Qed.

Lemma no_newline_spec (line : str) :
  existsb (N.eqb newline) line = false <-> ~ In newline line.
Proof.
  split.
  - intros Hno Hin.
    assert (Hyes : existsb (N.eqb newline) line = true)
      by (apply existsb_exists; exists newline; split;
          [assumption|apply N.eqb_refl]).
    congruence.
  - intros Hno. destruct (existsb (N.eqb newline) line) eqn:E; [|reflexivity].
    apply existsb_exists in E. destruct E as (c & Hin & Hc).
    apply N.eqb_eq in Hc. subst c. contradiction.
Qed.

Lemma no_newline_lines (lines : list str) :
  forallb (fun line => negb (existsb (N.eqb newline) line)) lines = true ->
  Forall (fun line => ~ In newline line) lines.
Proof.
  intros H. apply Forall_forall. intros line Hin.
  rewrite forallb_forall in H. specialize (H line Hin).
  apply negb_true_iff in H. now apply no_newline_spec.
Qed.

(** What the loop has collected is made of lines of the text that are no
    fence, each behind the indentation. *)
Lemma collected_lines (all lines acc : list str) (in_code_block : bool) :
  (forall line, In line lines -> In line all) ->
  Forall (fun out => exists line,
            In line all /\ out = indent ++ line
            /\ startswith (strip line) fence = false) acc ->
  Forall (fun out => exists line,
            In line all /\ out = indent ++ line
            /\ startswith (strip line) fence = false)
    (fst (fold_left format_line lines (acc, in_code_block))).
Proof.
  revert acc in_code_block.
  induction lines as [|line lines IH]; intros acc b Hall Hacc; [exact Hacc|].
  assert (Hrest : forall l, In l lines -> In l all)
    by (intros l Hl; apply Hall; now right).
  cbn [fold_left format_line].
  destruct (startswith (strip line) fence_c); [now apply IH|].
  destruct (startswith (strip line) fence) eqn:Hf; cbn [andb].
  - destruct b; now apply IH.
  - destruct b; [|now apply IH].
    apply IH; [assumption|].
    apply Forall_app. split; [assumption|].
    constructor; [|constructor].
    exists line. split; [apply Hall; now left|]. now split.
Qed.

(** X11: a text none of whose lines, stripped, starts with the C fence
    holds no C code for [format_text]: the result is the empty string. *)
Theorem no_fence_no_code (text : str) :
  forallb (fun line => negb (startswith (strip line) fence_c))
    (split_lines text) = true ->
  format_text text = [].
Proof.
  intros Hno. rewrite format_text_eq, outside_block by assumption.
  reflexivity.
Qed.

Lemma no_fence_no_code_witness :
  forallb (fun line => negb (startswith (strip line) fence_c))
    (split_lines [72; 105; 10; 96; 96; 96; 10; 120]) = true
  /\ format_text [72; 105; 10; 96; 96; 96; 10; 120] = [].
Proof.
  split; [reflexivity|].
  apply (no_fence_no_code [72; 105; 10; 96; 96; 96; 10; 120]). reflexivity.
Defined.

(** X12: the lines of a fenced block come out, each behind four spaces
    and otherwise as they were, joined by newlines; what comes before the
    opening fence and after the closing one is dropped.  A block that is
    never closed runs to the end of the text. *)
Theorem fenced_block_extracted
    (before body after : list str) (opening closing : str) :
  forallb (fun line => negb (startswith (strip line) fence_c)) before = true ->
  startswith (strip opening) fence_c = true ->
  forallb (fun line => negb (startswith (strip line) fence)) body = true ->
  startswith (strip closing) fence = true ->
  startswith (strip closing) fence_c = false ->
  forallb (fun line => negb (startswith (strip line) fence_c)) after = true ->
  forallb (fun line => negb (existsb (N.eqb newline) line))
    (before ++ opening :: body ++ closing :: after) = true ->
  format_text (join_lines (before ++ opening :: body ++ closing :: after))
  = join_lines (map (app indent) body)
  /\ format_text (join_lines (before ++ opening :: body))
     = join_lines (map (app indent) body).
Proof.
  intros Hbefore Hopen Hbody Hclose Hclose' Hafter Hlines.
  assert (Hshort :
    forallb (fun line => negb (existsb (N.eqb newline) line))
      (before ++ opening :: body) = true).
  { rewrite forallb_app in Hlines. apply andb_prop in Hlines.
    destruct Hlines as [H1 H2]. cbn [forallb] in H2.
    apply andb_prop in H2. destruct H2 as [H2 H3].
    rewrite forallb_app in H3. apply andb_prop in H3. destruct H3 as [H3 _].
    rewrite forallb_app. cbn [forallb]. now rewrite H1, H2, H3. }
  split.
  - rewrite format_text_eq, split_join;
      [|now destruct before|now apply no_newline_lines].
    rewrite fold_left_app, outside_block by assumption.
    cbn [fold_left format_line]. rewrite Hopen.
    rewrite fold_left_app, inside_block by assumption.
    cbn [fold_left format_line app]. rewrite Hclose', Hclose. cbn [andb].
    now rewrite outside_block.
  - rewrite format_text_eq, split_join;
      [|now destruct before|now apply no_newline_lines].
    rewrite fold_left_app, outside_block by assumption.
    cbn [fold_left format_line]. rewrite Hopen.
    now rewrite inside_block.
Qed.

Lemma fenced_block_extracted_witness :
  format_text sample_reply
  = join_lines
      (map (app indent)
         [[105; 110; 116; 32; 120; 59]; [9; 120; 32; 61; 32; 49; 59]])
  /\ format_text
       (join_lines
          ([[72; 105]]
           ++ [32; 96; 96; 96; 99]
              :: [[105; 110; 116; 32; 120; 59]; [9; 120; 32; 61; 32; 49; 59]]))
     = join_lines
         (map (app indent)
            [[105; 110; 116; 32; 120; 59]; [9; 120; 32; 61; 32; 49; 59]]).
Proof.
  apply (fenced_block_extracted
           [[72; 105]]
           [[105; 110; 116; 32; 120; 59]; [9; 120; 32; 61; 32; 49; 59]]
           [[98; 121; 101]]
           [32; 96; 96; 96; 99] [96; 96; 96]); reflexivity.
Defined.

(** X13: [format_text] returns the empty string, or lines each of which is
    four spaces followed by a line of the text that, stripped, does not start
    with a fence: it adds nothing of its own and never lets a fence line
    through. *)
Theorem output_lines_are_indented_input (text : str) :
  format_text text = []
  \/ Forall (fun out => exists line,
               In line (split_lines text) /\ out = indent ++ line
               /\ startswith (strip line) fence = false)
       (split_lines (format_text text)).
Proof.
  rewrite format_text_eq.
  pose proof (collected_lines (split_lines text) (split_lines text) [] false
                (fun line H => H) (Forall_nil _)) as Hout.
  destruct (fst (fold_left format_line (split_lines text) ([], false)))
    as [|out outs] eqn:E; [now left|right].
  rewrite split_join; [assumption|discriminate|].
  apply Forall_forall. intros o Ho Hnl.
  rewrite Forall_forall in Hout. destruct (Hout o Ho) as (line & Hin & -> & _).
  apply in_app_or in Hnl. destruct Hnl as [Hnl|Hnl].
  - cbn in Hnl. repeat (destruct Hnl as [Hnl|Hnl]; [discriminate|]). exact Hnl.
  - pose proof (split_lines_no_newline text) as Hno.
    rewrite Forall_forall in Hno. exact (Hno line Hin Hnl).
Qed.

End InsightsFacts.

(** * The build-step validator *)

Module StepsFacts.
Import Strings.String.
Import Steps.

Lemma is_set_spec (v : option json) : is_set v = true -> exists x, v = Some x.
Proof. destruct v as [x|]; [now exists x|discriminate]. Qed.

Lemma is_flag_spec (v : option json) :
  is_flag v = true -> exists b, v = Some (JBool b).
Proof. destruct v as [[]|]; try discriminate. now eexists. Qed.

Lemma isinstance_int_spec (v : json) :
  isinstance_int v = true <-> exists z, as_int v = Some z.
Proof.
  split.
  - destruct v; try discriminate; intros _; now eexists.
  - intros [z Hz]. destruct v; try discriminate; reflexivity.
Qed.

Lemma py_eq_int (x y : json) (a b : Z) :
  as_int x = Some a -> as_int y = Some b -> py_eq x y = (a =? b)%Z.
Proof.
  destruct x, y; cbn [as_int]; try discriminate;
    intros Ha Hb; injection Ha as <-; injection Hb as <-; reflexivity.
Qed.

(** Membership in the set of the indexes seen so far, all integers. *)
Lemma seen_mem (index : json) (z : Z) (seen : list json) :
  as_int index = Some z ->
  Forall (fun v => isinstance_int v = true) seen ->
  existsb (py_eq index) seen = true <-> In (Some z) (List.map as_int seen).
Proof.
  intros Hz Hseen. rewrite existsb_exists, in_map_iff. split.
  - intros (v & Hin & Heq). exists v. split; [|assumption].
    rewrite Forall_forall in Hseen. apply Hseen, isinstance_int_spec in Hin.
    destruct Hin as [b Hb]. rewrite (py_eq_int _ _ _ _ Hz Hb) in Heq.
    apply Z.eqb_eq in Heq. now subst b.
  - intros (v & Hv & Hin). exists v. split; [assumption|].
    rewrite (py_eq_int _ _ _ _ Hz Hv). apply Z.eqb_refl.
Qed.

(** A step that passes: what it is and what the set becomes. *)
Lemma validate_step_passes (step : json) (seen seen' : list json) :
  validate_step step seen = Return (Some seen') ->
  exists entries index,
    step = JDict entries
    /\ lookup (lit "index") entries = Some index
    /\ step_ok step = true
    /\ existsb (py_eq index) seen = false
    /\ seen' = index :: seen.
Proof.
  unfold validate_step, por, not_in, py_in, getitem, step_ok.
  destruct step as [| | | |s|items|entries]; cbn [obind]; try discriminate.
  - destruct (negb (contains s (lit "index"))); cbn [obind]; [discriminate|].
    destruct (negb (contains s (lit "description"))); cbn [obind];
      [discriminate|].
    destruct (negb (contains s (lit "work_path"))); cbn [obind];
      [discriminate|].
    destruct (negb (contains s (lit "execute_command"))); cbn [obind];
      discriminate.
  - repeat match goal with
           | |- context [negb (existsb ?f items)] =>
               destruct (negb (existsb f items)); cbn [obind]; try discriminate
           end.
  - destruct (lookup (lit "index") entries) as [index|] eqn:Hindex;
      cbn [obind negb]; [|discriminate].
    destruct (lookup (lit "description") entries);
      cbn [obind negb is_set]; [|discriminate].
    destruct (lookup (lit "work_path") entries);
      cbn [obind negb is_set]; [|discriminate].
    destruct (lookup (lit "execute_command") entries);
      cbn [obind negb is_set]; [|discriminate].
    unfold set_contains.
    destruct (existsb (py_eq index) seen) eqn:Hdup.
    + destruct index; cbn [obind]; discriminate.
    + destruct (lookup (lit "break_on_error") entries) as [flag|];
        [|destruct index; cbn [obind]; discriminate].
      destruct (lookup (lit "force_verbose") entries) as [flag'|];
        [|destruct index, flag; cbn [obind isinstance_bool negb];
          discriminate].
      destruct index, flag, flag';
        cbn [obind isinstance_bool isinstance_int negb is_flag andb];
        try discriminate;
        intros H; injection H as <-;
        (eexists; eexists; split; [reflexivity|]; split; [exact Hindex|]);
        repeat split; assumption || reflexivity.
Qed.

Lemma validate_step_ok (entries : list (str * json)) (index : json)
    (seen : list json) :
  lookup (lit "index") entries = Some index ->
  step_ok (JDict entries) = true ->
  existsb (py_eq index) seen = false ->
  validate_step (JDict entries) seen = Return (Some (index :: seen)).
Proof.
  intros Hindex Hok Hfresh. unfold step_ok in Hok. rewrite Hindex in Hok.
  repeat (apply andb_prop in Hok; destruct Hok as [Hok ?H]).
  repeat match goal with
         | H : is_set _ = true |- _ => apply is_set_spec in H; destruct H as [? H]
         | H : is_flag _ = true |- _ => apply is_flag_spec in H; destruct H as [? H]
         end.
  unfold validate_step, por, not_in, py_in, getitem, set_contains.
  repeat match goal with
         | H : lookup _ entries = Some _ |- _ => rewrite H; clear H
         end.
  cbn [obind negb]. rewrite Hfresh.
  destruct index; try discriminate Hok; reflexivity.
Qed.

(** The loop returns 0 exactly on steps that all pass, with indexes that
    differ from one another and from those already seen. *)
Lemma validate_loop_spec (items seen : list json) :
  Forall (fun v => isinstance_int v = true) seen ->
  validate_loop items seen = Return 0%Z
  <-> forallb step_ok items = true
      /\ NoDup (List.map step_index items)
      /\ (forall step, In step items ->
            ~ In (step_index step) (List.map as_int seen)).
Proof.
  revert seen. induction items as [|step items IH]; intros seen Hseen.
  - cbn. split; [intros _|reflexivity].
    split; [reflexivity|]. split; [constructor|intros ? []].
  - cbn [validate_loop forallb List.map]. split.
    + destruct (validate_step step seen) as [[seen'|]|e] eqn:Hstep;
        cbn [obind]; try discriminate.
      intros Hrest.
      apply validate_step_passes in Hstep.
      destruct Hstep as (entries & index & -> & Hindex & Hok & Hfresh & ->).
      assert (Hint : isinstance_int index = true).
      { unfold step_ok in Hok. rewrite Hindex in Hok.
        repeat (apply andb_prop in Hok; destruct Hok as [Hok _]). exact Hok. }
      destruct (proj1 (isinstance_int_spec index) Hint) as [z Hz].
      apply IH in Hrest; [|now constructor].
      destruct Hrest as (Hoks & Hnodup & Hfar).
      assert (Hidx : step_index (JDict entries) = Some z)
        by (cbn [step_index]; now rewrite Hindex).
      split; [now rewrite Hok|]. split.
      * constructor; [|assumption].
        rewrite Hidx. intros Hin. apply in_map_iff in Hin.
        destruct Hin as (other & Hother & Hin).
        apply (Hfar other Hin). rewrite Hother. cbn [List.map]. left.
        now rewrite Hz.
      * intros other [<-|Hin].
        -- rewrite Hidx. intros Hmem.
           apply (seen_mem index z seen Hz Hseen) in Hmem. congruence.
        -- intros Hmem. apply (Hfar other Hin). cbn [List.map]. now right.
    + intros (Hoks & Hnodup & Hfar).
      apply andb_prop in Hoks. destruct Hoks as [Hok Hoks].
      inversion Hnodup as [|? ? Hnew Hnodup']; subst.
      destruct step as [| | | | | |entries]; try discriminate Hok.
      assert (Hok' := Hok). unfold step_ok in Hok'.
      destruct (lookup (lit "index") entries) as [index|] eqn:Hindex;
        [|discriminate Hok'].
      assert (Hint : isinstance_int index = true).
      { repeat (apply andb_prop in Hok'; destruct Hok' as [Hok' _]).
        exact Hok'. }
      destruct (proj1 (isinstance_int_spec index) Hint) as [z Hz].
      assert (Hidx : step_index (JDict entries) = Some z)
        by (cbn [step_index]; now rewrite Hindex).
      assert (Hfresh : existsb (py_eq index) seen = false).
      { destruct (existsb (py_eq index) seen) eqn:E; [|reflexivity].
        apply (seen_mem index z seen Hz Hseen) in E.
        exfalso. apply (Hfar (JDict entries)); [now left|]. now rewrite Hidx. }
      rewrite (validate_step_ok entries index seen Hindex Hok Hfresh).
      cbn [obind]. apply IH; [now constructor|].
      split; [assumption|]. split; [assumption|].
      intros other Hin [Hmem|Hmem].
      * apply Hnew. rewrite Hidx, <- Hz, Hmem. now apply in_map.
      * now apply (Hfar other (or_intror Hin)).
Qed.

Lemma validate_loop_range (items seen : list json) (r : Z) :
  validate_loop items seen = Return r -> r = 0%Z \/ r = 1%Z.
Proof.
  revert seen. induction items as [|step items IH]; intros seen; cbn.
  - intros H. injection H as <-. now left.
  - destruct (validate_step step seen) as [[seen'|]|e]; cbn [obind].
    + apply IH.
    + intros H. injection H as <-. now right.
    + discriminate.
Qed.

(** Steps that are strings never pass. *)
Lemma validate_loop_strings (strings : list str) (seen : list json) :
  validate_loop (List.map JStr strings) seen = Return 0%Z -> strings = [].
Proof.
  destruct strings as [|s strings]; [reflexivity|].
  cbn [List.map validate_loop].
  destruct (validate_step (JStr s) seen) as [[seen'|]|e] eqn:Hstep;
    cbn [obind]; try discriminate.
  apply validate_step_passes in Hstep.
  destruct Hstep as (? & ? & Habs & _). discriminate Habs.
Qed.

(** Soundness of the verdict: what a file that is accepted holds. *)
Lemma validate_steps_sound (json_file : option json) :
  validate_steps json_file = 0%Z ->
  exists entries steps,
    json_file = Some (JDict entries)
    /\ lookup (lit "imc_build_steps") entries = Some steps
    /\ (steps = JDict [] \/ steps = JStr []
        \/ exists items,
             steps = JList items
             /\ forallb step_ok items = true
             /\ NoDup (List.map step_index items)).
Proof.
  destruct json_file as [data|]; [|discriminate].
  unfold validate_steps, validate_data, not_in, py_in, getitem.
  destruct data as [| | | |s|items|entries]; cbn [obind]; try discriminate.
  - destruct (negb (contains s (lit "imc_build_steps"))); discriminate.
  - match goal with
    | |- context [negb (existsb ?f items)] => destruct (negb (existsb f items))
    end; discriminate.
  - destruct (lookup (lit "imc_build_steps") entries) as [steps|] eqn:Hsteps;
      cbn [negb obind]; [|discriminate].
    intros Hzero. exists entries, steps. split; [reflexivity|].
    split; [exact Hsteps|].
    destruct steps as [| | | |s|items|keys]; cbn [iterate obind] in Hzero;
      try discriminate.
    + right. left.
      destruct (validate_loop (List.map (fun c => JStr [c]) s) [])
        as [r|e] eqn:Hloop; [|discriminate]. subst r.
      rewrite <- (map_map (fun c => [c]) JStr) in Hloop.
      apply validate_loop_strings in Hloop.
      destruct s; [reflexivity|discriminate].
    + right. right. exists items. split; [reflexivity|].
      destruct (validate_loop items []) as [r|e] eqn:Hloop; [|discriminate].
      subst r. apply validate_loop_spec in Hloop; [|constructor].
      destruct Hloop as (Hoks & Hnodup & _). now split.
    + left.
      destruct (validate_loop (List.map (fun kv => JStr (fst kv)) keys) [])
        as [r|e] eqn:Hloop; [|discriminate]. subst r.
      rewrite <- (map_map fst JStr) in Hloop.
      apply validate_loop_strings in Hloop.
      destruct keys; [reflexivity|discriminate].
Qed.


Lemma validate_list (items : list json) :
  (validate_steps (Some (JDict [(lit "imc_build_steps", JList items)])) = 0%Z
   <-> forallb step_ok items = true /\ NoDup (List.map step_index items))
  /\ (validate_steps (Some (JDict [(lit "imc_build_steps", JList items)])) = 0%Z
      \/ validate_steps (Some (JDict [(lit "imc_build_steps", JList items)]))
         = 1%Z).
Proof.
  unfold validate_steps, validate_data, not_in, py_in, getitem.
  cbn [lookup].
  replace (str_eqb (lit "imc_build_steps") (lit "imc_build_steps"))
    with true by reflexivity.
  cbn [negb obind iterate].
  pose proof (validate_loop_spec items [] (Forall_nil _)) as Hspec.
  destruct (validate_loop items []) as [r|e] eqn:Hloop.
  - destruct (validate_loop_range items [] r Hloop) as [-> | ->].
    + split; [|now left]. split; [|reflexivity].
      intros _. destruct (proj1 Hspec eq_refl) as (Hoks & Hnodup & _).
      now split.
    + split; [|now right]. split; [discriminate|].
      intros [Hoks Hnodup].
      assert (Habs : Return 1%Z = Return 0%Z); [|discriminate Habs].
      apply Hspec.
      split; [assumption|]. split; [assumption|]. intros ? _ [].
  - split; [|now right]. split; [discriminate|].
    intros [Hoks Hnodup].
    assert (Habs : Except e = Return 0%Z); [|discriminate Habs].
    apply Hspec.
    split; [assumption|]. split; [assumption|]. intros ? _ [].
Qed.

(** X15: the verdict does not depend on the order of the steps. *)
Theorem validate_steps_any_order (items items' : list json) :
  Permutation items items' ->
  validate_steps (Some (JDict [(lit "imc_build_steps", JList items)]))
  = validate_steps (Some (JDict [(lit "imc_build_steps", JList items')])).
Proof.
  intros Hperm.
  assert (Hmove : forall l l', Permutation l l' ->
    forallb step_ok l = true /\ NoDup (List.map step_index l) ->
    forallb step_ok l' = true /\ NoDup (List.map step_index l')).
  { intros l l' Hp [Hoks Hnodup]. split.
    - apply forallb_forall. intros x Hx.
      rewrite forallb_forall in Hoks. apply Hoks.
      now apply (Permutation_in x (Permutation_sym Hp)).
    - apply (Permutation_NoDup (Permutation_map step_index Hp) Hnodup). }
  destruct (validate_list items) as [Hzero [H0|H1]],
           (validate_list items') as [Hzero' [H0'|H1']]; try congruence.
  - apply Hzero, (Hmove _ _ Hperm), Hzero' in H0. congruence.
  - apply Hzero', (Hmove _ _ (Permutation_sym Hperm)), Hzero in H0'.
    congruence.
Qed.

Lemma validate_steps_any_order_witness :
  Permutation sample_steps (rev sample_steps)
  /\ validate_steps (Some (JDict [(lit "imc_build_steps", JList sample_steps)]))
     = validate_steps
         (Some (JDict [(lit "imc_build_steps", JList (rev sample_steps))])).
Proof.
  split; [apply Permutation_rev|].
  apply (validate_steps_any_order sample_steps (rev sample_steps)).
  apply Permutation_rev.
Defined.


(** X16: on every file [validate_steps] accepts, [step_get_count] returns
    the number of steps that were checked: the length of the list (0 for the
    empty object and the empty string). *)
Theorem count_of_validated_steps (json_file : option json) :
  validate_steps json_file = 0%Z ->
  exists entries steps items,
    json_file = Some (JDict entries)
    /\ lookup (lit "imc_build_steps") entries = Some steps
    /\ iterate steps = Return items
    /\ step_get_count json_file = Z.of_nat (List.length items).
Proof.
  intros Hzero. apply validate_steps_sound in Hzero.
  destruct Hzero as (entries & steps & -> & Hsteps & Hshape).
  unfold step_get_count, py_in, getitem. rewrite Hsteps. cbn [obind].
  destruct Hshape as [-> | [-> | (items & -> & _)]].
  - exists entries, (JDict []), []. now repeat split.
  - exists entries, (JStr []), []. now repeat split.
  - exists entries, (JList items), items. now repeat split.
Qed.

Lemma count_of_validated_steps_witness :
  validate_steps (Some (JDict [(lit "imc_build_steps", JList sample_steps)]))
  = 0%Z
  /\ exists entries steps items,
       Some (JDict [(lit "imc_build_steps", JList sample_steps)])
       = Some (JDict entries)
       /\ lookup (lit "imc_build_steps") entries = Some steps
       /\ iterate steps = Return items
       /\ step_get_count
            (Some (JDict [(lit "imc_build_steps", JList sample_steps)]))
          = Z.of_nat (List.length items).
Proof.
  split; [reflexivity|].
  apply (count_of_validated_steps
           (Some (JDict [(lit "imc_build_steps", JList sample_steps)]))).
  reflexivity.
Defined.

End StepsFacts.
